(** * JIRA new-issue mailer: a shallow embedding of [jira_new_issue_mailer.py]

    The script compares the two most recent CSV exports of a folder, takes the
    issue keys that are new in the later one, groups the new rows by reporter
    and mails every reporter, falling back to [.eml] drafts on disk when SMTP
    is not available.

    Conventions of the model.
    - A Python [str] is a [string] holding its UTF-8 encoding.  Comparison of
      [str] values is by code point, which on UTF-8 is the byte-wise
      lexicographic order ([String.le] of stdpp).
    - A [dict] used as a map of columns is a [gmap]; the [set] of issue keys is
      a [gset]; [by_reporter], whose iteration order is observable, is an
      insertion-ordered association list.
    - Everything the script does to the outside (log records, SMTP commands,
      draft files) is an [Event] appended to a trace; what it reads from the
      outside (folder listing, file contents, clock, SMTP server) is a field of
      [World].
    - A message is the record of its headers and its body, the headers
      holding the values they were given; the file written for a draft is
      recorded with the message it serialises, and writing it succeeds. *)

From Stdlib Require Import Ascii String.
From stdpp Require Import base option list strings gmap sorting pretty.

(** ** Python strings *)

Module Str.

(** [str.isspace] holds for the code points U+0009..U+000D, U+001C..U+001F,
    U+0020, U+0085, U+00A0, U+1680, U+2000..U+200A, U+2028, U+2029, U+202F,
    U+205F and U+3000.  Their UTF-8 encodings have one, two or three bytes. *)
Definition is_space1 (a : ascii) : bool :=
  let n := nat_of_ascii a in
  (Nat.leb 9 n && Nat.leb n 13) || (Nat.leb 28 n && Nat.leb n 32).

Definition is_space2 (a b : ascii) : bool :=
  let m := nat_of_ascii a in
  let n := nat_of_ascii b in
  Nat.eqb m 194 && (Nat.eqb n 133 || Nat.eqb n 160).

Definition is_space3 (a b c : ascii) : bool :=
  let l := nat_of_ascii a in
  let m := nat_of_ascii b in
  let n := nat_of_ascii c in
  (Nat.eqb l 225 && Nat.eqb m 154 && Nat.eqb n 128)
  || (Nat.eqb l 226 && Nat.eqb m 128
      && ((Nat.leb 128 n && Nat.leb n 138)
          || Nat.eqb n 168 || Nat.eqb n 169 || Nat.eqb n 175))
  || (Nat.eqb l 226 && Nat.eqb m 129 && Nat.eqb n 159)
  || (Nat.eqb l 227 && Nat.eqb m 128 && Nat.eqb n 128).

(** Drops the white space at the front; [sp2] and [sp3] recognise the
    two- and three-byte encodings in the order the bytes are met. *)
Fixpoint strip_front (sp2 : ascii → ascii → bool)
    (sp3 : ascii → ascii → ascii → bool) (s : string) : string :=
  match s with
  | EmptyString => s
  | String a s1 =>
      if is_space1 a then strip_front sp2 sp3 s1
      else
        match s1 with
        | EmptyString => s
        | String b s2 =>
            if sp2 a b then strip_front sp2 sp3 s2
            else
              match s2 with
              | EmptyString => s
              | String c s3 =>
                  if sp3 a b c then strip_front sp2 sp3 s3 else s
              end
        end
  end.

Definition lstrip (s : string) : string :=
  strip_front is_space2 is_space3 s.

(** The same scan over the reversed string, where the bytes of an encoding
    are met last byte first. *)
Definition rstrip (s : string) : string :=
  String.rev
    (strip_front (λ a b, is_space2 b a) (λ a b c, is_space3 c b a)
       (String.rev s)).

(** [s.strip()] *)
Definition strip (s : string) : string := rstrip (lstrip s).

(** Truth value of a [str]: every string but the empty one. *)
Definition nonempty (s : string) : bool :=
  match s with EmptyString => false | String _ _ => true end.

(** [s.replace(c, t)] for a one-character pattern [c]. *)
Fixpoint replace (c : ascii) (t : string) (s : string) : string :=
  match s with
  | EmptyString => EmptyString
  | String a s' =>
      if Ascii.eqb a c then t +:+ replace c t s'
      else String a (replace c t s')
  end.

End Str.

(** ** Configuration *)

(** Column headers of the CSV export. *)
Definition COL_ISSUE_KEY : string := "Issue key".
Definition COL_SUMMARY : string := "Summary".
Definition COL_REPORTER : string := "Reporter".
Definition COL_REPORTER_EMAIL : string := "Reporter email".
Definition COL_CREATED : string := "Created".

(** ** Rows of a snapshot *)

(** A row as [csv.DictReader] builds it: the cells under the header names,
    where a cell missing from a short row holds [None], and under the key
    [None] the surplus cells of a long row ([rest], empty when there are
    none). *)
Record Row := mkRow {
  cells : gmap string (option string);
  rest : list string
}.

(** [row.get(k)]: [None] when the column is absent or holds [None]. *)
Definition get (row : Row) (k : string) : option string :=
  mjoin (cells row !! k).

(** [row.get(k)], with the empty string in place of [None]. *)
Definition get_or_empty (row : Row) (k : string) : string :=
  match get row k with
  | Some s => s
  | None => EmptyString
  end.

(** The element a row contributes to the set comprehension of
    [extract_issue_keys]: the filter [if row.get(COL_ISSUE_KEY)] looks at the
    cell as it is, the element is the stripped cell. *)
Definition issue_key_of (row : Row) : option string :=
  match get row COL_ISSUE_KEY with
  | Some s => if Str.nonempty s then Some (Str.strip s) else None
  | None => None
  end.

Definition extract_issue_keys (rows : list Row) : gset string :=
  list_to_set (omap issue_key_of rows).

(** The new keys as [main] computes them from the two snapshots. *)
Definition new_keys_of (prev_rows today_rows : list Row) : gset string :=
  let prev_keys := extract_issue_keys prev_rows in
  let today_keys := extract_issue_keys today_rows in
  today_keys ∖ prev_keys.

(** ** Issues grouped by reporter *)

(** The dictionary appended for a new row, with its four keys. *)
Record Item := mkItem {
  item_key : string;
  item_summary : string;
  item_created : string;
  item_reporter : string
}.

Global Instance Item_eq_dec : EqDecision Item.
Proof. solve_decision. Defined.

(** [by_reporter]: a [dict] from address to list of items.  A [dict] iterates
    in insertion order and [main] sends in that order, so the model is an
    association list with one entry per address, oldest first. *)
Definition Groups : Type := list (string * list Item).

(** [by_reporter.setdefault(email, []).append(item)] *)
Fixpoint setdefault_append (by_reporter : Groups) (email : string)
    (item : Item) : Groups :=
  match by_reporter with
  | [] => [(email, [item])]
  | (e, items) :: others =>
      if decide (e = email) then (e, items ++ [item]) :: others
      else (e, items) :: setdefault_append others email item
  end.

(** ** Messages *)

Record EmailMessage := mkEmailMessage {
  msg_From : option string;
  msg_To : option string;
  msg_Reply_To : option string;
  msg_Subject : option string;
  msg_content : string
}.

Global Instance EmailMessage_eq_dec : EqDecision EmailMessage.
Proof. solve_decision. Defined.

(** ** The outside world and the effects of a run *)

Record Path := mkPath { parent : string; name : string }.

Global Instance Path_eq_dec : EqDecision Path.
Proof. solve_decision. Defined.

(** A reading of [datetime.now()]. *)
Record datetime := mkDatetime {
  year : N; month : N; day : N;
  hour : N; minute : N; second : N; microsecond : N
}.

Inductive Exn :=
  | RuntimeError (text : string)
  | OSError (text : string)
  | CsvError (text : string)
  | IndexError (text : string)
  | UnicodeDecodeError (text : string)
  | SMTPException (text : string).

(** [str(e)] *)
Definition exn_str (e : Exn) : string :=
  match e with
  | RuntimeError s | OSError s | CsvError s | IndexError s
  | UnicodeDecodeError s | SMTPException s => s
  end.

Inductive Level := INFO | WARNING | ERROR.

(** The calls made on an [smtplib.SMTP] session. *)
Inductive SmtpCall :=
  | SmtpConnect (host : string) (port : nat)
  | SmtpStartTls
  | SmtpLogin (user password : string)
  | SmtpSendMessage (msg : EmailMessage).

Inductive Event :=
  | Logged (level : Level) (text : string)
  | Smtp (call : SmtpCall)
  | FileWritten (path : Path) (msg : EmailMessage).

Definition Trace : Type := list Event.

(** Opening a file for reading: the operating system refuses with an error
    text, or gives the bytes of the file. *)
Inductive FileResult :=
  | CannotOpen (text : string)
  | Contents (bytes : string).

Record World := mkWorld {
  (* configuration read at import time *)
  EXPORT_DIR : string;
  FROM_EMAIL : string;
  REPLY_TO : string;
  SMTP_HOST : option string;
  SMTP_PORT : nat;
  SMTP_USER : option string;
  SMTP_PASS : option string;
  USE_TLS : bool;
  ONE_EMAIL_PER_REPORTER : bool;
  (* the platform: Windows paths match patterns without regard to case *)
  windows : bool;
  (* the entries of a folder, in the order the system lists them *)
  listdir : string → list string;
  (* what opening a file for reading gives *)
  files : Path → FileResult;
  (* the clock and the SMTP server, asked after so many events of the run;
     the server answers a call with [Some text] when the call raises *)
  clock : nat → datetime;
  smtp : nat → SmtpCall → option string
}.

(** A computation reads the trace so far and returns a value or a raised
    exception together with the extended trace. *)
Definition M (A : Type) : Type := Trace → (Exn + A) * Trace.

Definition ret {A} (a : A) : M A := λ t, (inr a, t).

Definition bind {A B} (m : M A) (k : A → M B) : M B :=
  λ t, match m t with
       | (inr a, t') => k a t'
       | (inl e, t') => (inl e, t')
       end.

Definition raise {A} (e : Exn) : M A := λ t, (inl e, t).

(** [try: m except Exception as e: handler e] *)
Definition try_except {A} (m : M A) (handler : Exn → M A) : M A :=
  λ t, match m t with
       | (inr a, t') => (inr a, t')
       | (inl e, t') => handler e t'
       end.

Definition emit (e : Event) : M unit := λ t, (inr tt, t ++ [e]).

Notation "'do' x <- c ; k" := (bind c (λ x, k))
  (at level 10, x name, c at level 100, k at level 200).
Notation "'do' ' p <- c ; k" := (bind c (λ x, match x with p => k end))
  (at level 10, p pattern, c at level 100, k at level 200).
Notation "c ;; k" := (bind c (λ _, k))
  (at level 100, k at level 200, right associativity).

(** [for x in l: body x], where the loop updates a local variable [s]. *)
Fixpoint for_fold {A S} (l : list A) (s : S) (body : S → A → M S) : M S :=
  match l with
  | [] => ret s
  | x :: l' => do s' <- body s x; for_fold l' s' body
  end.

(** [for x in l: body x] *)
Fixpoint for_each {A} (l : list A) (body : A → M unit) : M unit :=
  match l with
  | [] => ret tt
  | x :: l' => body x;; for_each l' body
  end.

Definition logging_info (text : string) : M unit := emit (Logged INFO text).
Definition logging_warning (text : string) : M unit :=
  emit (Logged WARNING text).
Definition logging_exception (text : string) : M unit :=
  emit (Logged ERROR text).

(** ** [group_new_by_reporter] *)

(** The body of the loop over [rows]. *)
Definition group_row (new_keys : gset string) (by_reporter : Groups)
    (r : Row) : M Groups :=
  let key := Str.strip (get_or_empty r COL_ISSUE_KEY) in
  if decide (key ∈ new_keys) then
    let email := Str.strip (get_or_empty r COL_REPORTER_EMAIL) in
    let email :=
      if Str.nonempty email then email
      else Str.strip (get_or_empty r COL_REPORTER) in
    if Str.nonempty email then
      ret (setdefault_append by_reporter email
             {| item_key := key;
                item_summary := Str.strip (get_or_empty r COL_SUMMARY);
                item_created := Str.strip (get_or_empty r COL_CREATED);
                item_reporter := Str.strip (get_or_empty r COL_REPORTER) |})
    else
      logging_warning ("Skipping " +:+ key +:+ ": no reporter email.");;
      ret by_reporter
  else ret by_reporter.

Definition group_new_by_reporter (rows : list Row) (new_keys : gset string)
    : M Groups :=
  for_fold rows [] (group_row new_keys).

(** ** [build_message] *)

Definition nl : string := String "010" EmptyString.

Definition EMAIL_SUBJECT : string :=
  "Thanks for logging your request — we’ve got it".

Definition EMAIL_BODY : string :=
  String.concat nl [
    "Hello,";
    EmptyString;
    "This is a quick confirmation that we’ve received your request in Jira and it’s now in our intake queue.";
    EmptyString;
    "What happens next:";
    "• Our team will triage and prioritize items.";
    "• If we need additional details, we’ll reach out on the Jira ticket.";
    "• For urgent production-impacting issues, please also follow the standard escalation process.";
    EmptyString;
    "You do not need to reply to this email. We’ll keep all updates within Jira.";
    EmptyString;
    "Best regards,";
    "IT Engineering";
    EmptyString ].

(** [sorted(l, key=key)] for a key that is a [str].  [sorted] is a stable
    sort; the model is the insertion sort that puts an element in front of the
    first later element whose key is not smaller, and stability makes the
    result independent of the sorting algorithm (see [sorted_stable]). *)
Section sorted.
Context {A : Type} (key : A → string).

Fixpoint insert_sorted (x : A) (l : list A) : list A :=
  match l with
  | [] => [x]
  | y :: l' =>
      if String.leb (key x) (key y) then x :: y :: l'
      else y :: insert_sorted x l'
  end.

Definition sorted (l : list A) : list A := foldr insert_sorted [] l.
End sorted.

(** The line written for one issue. *)
Definition issue_line (item : Item) : string :=
  "• " +:+ item_key item +:+ " — " +:+ item_summary item
  +:+ " (Created: " +:+ item_created item +:+ ")".

Definition issues_header : string :=
  nl +:+ nl +:+ "New issues logged by you since yesterday:" +:+ nl.

Definition issues_footer : string :=
  nl +:+ "We’ll keep you updated in Jira." +:+ nl.

Definition build_message (w : World) (to_addr subject body : string)
    (list_of_issues : option (list Item)) : EmailMessage :=
  let final_body :=
    match list_of_issues with
    | Some ((_ :: _) as issues) =>
        let final_body := body +:+ issues_header in
        let final_body :=
          foldl (λ final_body item, final_body +:+ (issue_line item +:+ nl))
            final_body (sorted item_key issues) in
        final_body +:+ issues_footer
    | _ => body
    end in
  {| msg_From := Some (FROM_EMAIL w);
     msg_To := Some to_addr;
     msg_Reply_To :=
       if Str.nonempty (REPLY_TO w) then Some (REPLY_TO w) else None;
     msg_Subject := Some subject;
     msg_content := final_body |}.

(** ** [try_send_via_smtp] *)

(** One call on the SMTP session: it is recorded, and raises when the server
    says so. *)
Definition smtp_call (w : World) (c : SmtpCall) : M unit :=
  λ t, match smtp w (length t) c with
       | None => (inr tt, t ++ [Smtp c])
       | Some text => (inl (SMTPException text), t ++ [Smtp c])
       end.

(** [if SMTP_USER and SMTP_PASS: server.login(SMTP_USER, SMTP_PASS)] *)
Definition smtp_login_if_configured (w : World) : M unit :=
  match SMTP_USER w, SMTP_PASS w with
  | Some ((String _ _) as user), Some ((String _ _) as password) =>
      smtp_call w (SmtpLogin user password)
  | _, _ => ret tt
  end.

Definition try_send_via_smtp (w : World) (msg : EmailMessage)
    : M (bool * string) :=
  match SMTP_HOST w with
  | Some ((String _ _) as host) =>
      try_except
        ((if USE_TLS w then
            smtp_call w (SmtpConnect host (SMTP_PORT w));;
            smtp_call w SmtpStartTls;;
            smtp_login_if_configured w;;
            smtp_call w (SmtpSendMessage msg)
          else
            smtp_call w (SmtpConnect host (SMTP_PORT w));;
            smtp_login_if_configured w;;
            smtp_call w (SmtpSendMessage msg));;
         ret (true, "sent"))
        (λ e, ret (false, exn_str e))
  | _ => ret (false, "SMTP_HOST not set")
  end.

(** ** [save_as_eml] *)

Definition digit_char (d : N) : ascii := ascii_of_N (48 + d).

(** The [width] low decimal digits of [n], most significant first: [n]
    printed with leading zeros when [n < 10 ^ width]. *)
Fixpoint digits (width : nat) (n : N) : string :=
  match width with
  | 0 => EmptyString
  | S width' =>
      String (digit_char ((n / 10 ^ N.of_nat width') mod 10)%N)
        (digits width' n)
  end.


(** [d.strftime("%Y%m%d_%H%M%S_%f")] *)
Definition strftime (d : datetime) : string :=
  digits 4 (year d) +:+ digits 2 (month d) +:+ digits 2 (day d) +:+ "_"
  +:+ digits 2 (hour d) +:+ digits 2 (minute d) +:+ digits 2 (second d)
  +:+ "_" +:+ digits 6 (microsecond d).

Definition sep (w : World) : string := if windows w then "\" else "/".

(** [str(p)] *)
Definition path_str (w : World) (p : Path) : string :=
  parent p +:+ sep w +:+ name p.

Definition DRAFTS_DIR (w : World) : string :=
  EXPORT_DIR w +:+ sep w +:+ "_drafts".

(** The recipient, or [unknown] when the header is missing or empty, with
    every [@] replaced by [_at_] and every [>] and [<] removed. *)
Definition safe_to (msg : EmailMessage) : string :=
  let to :=
    match msg_To msg with
    | Some ((String _ _) as to) => to
    | _ => "unknown"
    end in
  Str.replace "<" EmptyString
    (Str.replace ">" EmptyString (Str.replace "@" "_at_" to)).

Definition draft_name (ts : string) (msg : EmailMessage) (suffix : string)
    : string :=
  "draft_" +:+ ts +:+ "_" +:+ safe_to msg +:+ suffix +:+ ".eml".

(** The draft is written under [DRAFTS_DIR]; the file holds the serialised
    message, recorded here as the message itself. *)
Definition save_as_eml (w : World) (msg : EmailMessage) (suffix : string)
    : M Path :=
  λ t,
    let ts := strftime (clock w (length t)) in
    let path := mkPath (DRAFTS_DIR w) (draft_name ts msg suffix) in
    (inr path, t ++ [FileWritten path msg]).

(** ** [pick_latest_two_csvs] *)

Definition to_lower (a : ascii) : ascii :=
  let n := nat_of_ascii a in
  if Nat.leb 65 n && Nat.leb n 90 then ascii_of_nat (n + 32) else a.

Fixpoint lower (s : string) : string :=
  match s with
  | EmptyString => EmptyString
  | String a s' => String (to_lower a) (lower s')
  end.

Definition ends_with (suffix s : string) : bool :=
  String.prefix (String.rev suffix) (String.rev s).

(** Whether a file name matches the pattern [*.csv]. *)
Definition matches_csv (w : World) (n : string) : bool :=
  ends_with ".csv" (if windows w then lower n else n).

(** [folder.glob("*.csv")] *)
Definition glob_csv (w : World) (folder : string) : list Path :=
  mkPath folder <$> filter (λ n, matches_csv w n = true) (listdir w folder).

(** The selector only reads the folder: it returns its result or the
    exception it raises. *)
Definition pick_latest_two_csvs (w : World) (folder : string)
    : Exn + Path * Path :=
  let files := sorted name (glob_csv w folder) in
  if decide (length files < 2) then
    inl (RuntimeError "Need at least two CSVs (yesterday & today).")
  else
    (* files[-2], files[-1] *)
    match files !! (length files - 2), files !! (length files - 1) with
    | Some older, Some newer => inr (older, newer)
    | _, _ => inl (IndexError "list index out of range")
    end.

(** ** [load_csv] *)

(** *** Decoding with the codec [utf-8-sig] *)

Module Utf8.

Definition between (lo hi : nat) (a : ascii) : bool :=
  let n := nat_of_ascii a in Nat.leb lo n && Nat.leb n hi.

Definition cont (a : ascii) : bool := between 128 191 a.

(** Well-formed UTF-8: shortest forms only, no surrogates, nothing above
    U+10FFFF. *)
Fixpoint valid (s : string) : bool :=
  match s with
  | EmptyString => true
  | String a s1 =>
      if between 0 127 a then valid s1
      else
        match s1 with
        | EmptyString => false
        | String b s2 =>
            if between 194 223 a then cont b && valid s2
            else
              match s2 with
              | EmptyString => false
              | String c s3 =>
                  if between 224 239 a then
                    (if between 224 224 a then between 160 191 b
                     else if between 237 237 a then between 128 159 b
                     else cont b)
                    && cont c && valid s3
                  else
                    match s3 with
                    | EmptyString => false
                    | String d s4 =>
                        between 240 244 a
                        && (if between 240 240 a then between 144 191 b
                            else if between 244 244 a then between 128 143 b
                            else cont b)
                        && cont c && cont d && valid s4
                    end
              end
        end
  end.

(** The byte order mark, U+FEFF in UTF-8. *)
Definition BOM : string := String "239" (String "187" (String "191" EmptyString)).

(** [utf-8-sig] skips one byte order mark at the start of the data. *)
Definition skip_bom (bytes : string) : string :=
  match bytes with
  | String "239" (String "187" (String "191" text)) => text
  | _ => bytes
  end.

(** The decoded text, or [None] for [UnicodeDecodeError]. *)
Definition decode_sig (bytes : string) : option string :=
  let text := skip_bom bytes in
  if valid text then Some text else None.

(** The number of code points of a text. *)
Fixpoint code_points (s : string) : N :=
  match s with
  | EmptyString => 0%N
  | String a s' => ((if cont a then 0 else 1) + code_points s')%N
  end.

End Utf8.

(** The lines a text file yields when it is opened with [newline] set to the
    empty string: a line ends after LF, after CR LF, or after a CR that no LF
    follows, and keeps its line end. *)
Fixpoint lines_from (cur : string) (text : string) : list string :=
  match text with
  | EmptyString => if Str.nonempty cur then [cur] else []
  | String a text' =>
      if Ascii.eqb a "010" then
        (cur +:+ String a EmptyString) :: lines_from EmptyString text'
      else if Ascii.eqb a "013" then
        match text' with
        | String b text'' =>
            if Ascii.eqb b "010" then
              (cur +:+ String a (String b EmptyString))
              :: lines_from EmptyString text''
            else (cur +:+ String a EmptyString) :: lines_from EmptyString text'
        | EmptyString => [cur +:+ String a EmptyString]
        end
      else lines_from (cur +:+ String a EmptyString) text'
  end.

Definition lines_of (text : string) : list string :=
  lines_from EmptyString text.

(** *** The reader of the [csv] module, dialect [excel]

    Delimiter comma, quote character the double quote, a doubled quote inside
    a quoted field stands for one quote, no escape character, initial spaces
    kept, not strict.  The states of the escape character cannot be reached
    and are left out. *)
Module Csv.

Inductive ParserState :=
  | START_RECORD
  | START_FIELD
  | IN_FIELD
  | IN_QUOTED_FIELD
  | QUOTE_IN_QUOTED_FIELD
  | EAT_CRNL.

Global Instance ParserState_eq_dec : EqDecision ParserState.
Proof. solve_decision. Defined.

Record Reader := mkReader {
  state : ParserState;
  fields : list string;
  field : string;
  field_len : N
}.

Definition delimiter : ascii := ",".
Definition quotechar : ascii := "034".
Definition field_limit : N := 131072.

Definition is_crlf (a : ascii) : bool :=
  Ascii.eqb a "010" || Ascii.eqb a "013".

Definition set_state (s : ParserState) (r : Reader) : Reader :=
  mkReader s (fields r) (field r) (field_len r).

Definition parse_save_field (r : Reader) : Reader :=
  mkReader (state r) (fields r ++ [field r]) EmptyString 0.

(** A field holds at most [field_limit] characters; the length counts code
    points, so a continuation byte does not count. *)
Definition parse_add_char (a : ascii) (r : Reader) : Exn + Reader :=
  if Utf8.cont a then
    inr (mkReader (state r) (fields r) (field r +:+ String a EmptyString)
           (field_len r))
  else if (field_limit <=? field_len r)%N then
    inl (CsvError "field larger than field limit (131072)")
  else
    inr (mkReader (state r) (fields r) (field r +:+ String a EmptyString)
           (field_len r + 1)).

Definition add_char_then (s : ParserState) (a : ascii) (r : Reader)
    : Exn + Reader :=
  match parse_add_char a r with
  | inl e => inl e
  | inr r' => inr (set_state s r')
  end.

(** The state [START_FIELD]; [None] is the end of the line. *)
Definition start_field (r : Reader) (c : option ascii) : Exn + Reader :=
  match c with
  | None => inr (set_state START_RECORD (parse_save_field r))
  | Some a =>
      if is_crlf a then inr (set_state EAT_CRNL (parse_save_field r))
      else if Ascii.eqb a quotechar then inr (set_state IN_QUOTED_FIELD r)
      else if Ascii.eqb a delimiter then
        inr (set_state START_FIELD (parse_save_field r))
      else add_char_then IN_FIELD a r
  end.

Definition parse_process_char (r : Reader) (c : option ascii)
    : Exn + Reader :=
  match state r with
  | START_RECORD =>
      match c with
      | None => inr r
      | Some a =>
          if is_crlf a then inr (set_state EAT_CRNL r) else start_field r c
      end
  | START_FIELD => start_field r c
  | IN_FIELD =>
      match c with
      | None => inr (set_state START_RECORD (parse_save_field r))
      | Some a =>
          if is_crlf a then inr (set_state EAT_CRNL (parse_save_field r))
          else if Ascii.eqb a delimiter then
            inr (set_state START_FIELD (parse_save_field r))
          else add_char_then IN_FIELD a r
      end
  | IN_QUOTED_FIELD =>
      match c with
      | None => inr r
      | Some a =>
          if Ascii.eqb a quotechar then
            inr (set_state QUOTE_IN_QUOTED_FIELD r)
          else add_char_then IN_QUOTED_FIELD a r
      end
  | QUOTE_IN_QUOTED_FIELD =>
      match c with
      | None => inr (set_state START_RECORD (parse_save_field r))
      | Some a =>
          if Ascii.eqb a quotechar then add_char_then IN_QUOTED_FIELD a r
          else if Ascii.eqb a delimiter then
            inr (set_state START_FIELD (parse_save_field r))
          else if is_crlf a then
            inr (set_state EAT_CRNL (parse_save_field r))
          else add_char_then IN_FIELD a r
      end
  | EAT_CRNL =>
      match c with
      | None => inr (set_state START_RECORD r)
      | Some a =>
          if is_crlf a then inr r
          else
            inl (CsvError
                   "new-line character seen in unquoted field - do you need to open the file with newline=''?")
      end
  end.

(** [parse_reset] *)
Definition reset : Reader := mkReader START_RECORD [] EmptyString 0.

(** The characters of a line, then the end of the line. *)
Fixpoint feed_line (r : Reader) (line : string) : Exn + Reader :=
  match line with
  | EmptyString => parse_process_char r None
  | String a line' =>
      match parse_process_char r (Some a) with
      | inl e => inl e
      | inr r' => feed_line r' line'
      end
  end.

(** All the records of the reader.  A record is complete when a line leaves
    the parser in [START_RECORD]; at the end of the input an open record is
    returned when it holds characters or stands in a quoted field. *)
Fixpoint records_from (r : Reader) (lines : list string)
    : Exn + list (list string) :=
  match lines with
  | [] =>
      if Str.nonempty (field r) || bool_decide (state r = IN_QUOTED_FIELD)
      then inr [fields (parse_save_field r)]
      else inr []
  | line :: lines' =>
      match feed_line r line with
      | inl e => inl e
      | inr r' =>
          if decide (state r' = START_RECORD) then
            match records_from reset lines' with
            | inl e => inl e
            | inr records => inr (fields r' :: records)
            end
          else records_from r' lines'
      end
  end.

Definition reader (lines : list string) : Exn + list (list string) :=
  records_from reset lines.

(** The dictionary [csv.DictReader] builds from a record. *)
Definition dict_row (fieldnames row : list string) : Row :=
  let d := foldl (λ d kv, <[kv.1 := Some kv.2]> d) ∅ (zip fieldnames row) in
  let lf := length fieldnames in
  let lr := length row in
  if decide (lf < lr) then mkRow d (drop lf row)
  else if decide (lr < lf) then
    mkRow (foldl (λ d k, <[k := None]> d) d (drop lr fieldnames)) []
  else mkRow d [].

(** The rows of [csv.DictReader]: the first record gives the field names,
    and an empty record (a blank line) after it is passed over. *)
Definition DictReader (records : list (list string)) : list Row :=
  match records with
  | [] => []
  | fieldnames :: records' =>
      dict_row fieldnames <$> filter (λ row, row ≠ []) records'
  end.

End Csv.

(** The rows read from the bytes of an opened file. *)
Definition rows_of_bytes (bytes : string) : Exn + list Row :=
  match Utf8.decode_sig bytes with
  | None => inl (UnicodeDecodeError "invalid utf-8")
  | Some text =>
      match Csv.reader (lines_of text) with
      | inl e => inl e
      | inr records => inr (Csv.DictReader records)
      end
  end.

(** The loader only reads the file. *)
Definition load_csv (w : World) (path : Path) : Exn + list Row :=
  match files w path with
  | CannotOpen text => inl (OSError text)
  | Contents bytes => rows_of_bytes bytes
  end.

(** ** [main] *)

(** What [main] does with a built message, in both of its loops: one attempt
    to send and, when that is refused, a draft.  The loops differ in the text
    logged after a delivery and in the suffix of the draft. *)
Definition deliver (w : World) (msg : EmailMessage) (sent_text suffix : string)
    : M unit :=
  do sent <- try_send_via_smtp w msg;
  if sent.1 then logging_info sent_text
  else
    do p <- save_as_eml w msg suffix;
    logging_warning ("SMTP unavailable (" +:+ sent.2 +:+ "). Draft saved: "
                     +:+ path_str w p).

(** The loop of [main] when [ONE_EMAIL_PER_REPORTER] is set. *)
Definition send_per_reporter (w : World) (by_reporter : Groups) : M unit :=
  for_each by_reporter (λ entry,
    let reporter_email := entry.1 in
    let issues := entry.2 in
    let msg :=
      build_message w reporter_email EMAIL_SUBJECT EMAIL_BODY (Some issues) in
    deliver w msg
      ("Email SENT to " +:+ reporter_email +:+ ": "
       +:+ pretty (length issues) +:+ " issues.")
      "_group").

(** The message and the delivery of one issue in the other loop. *)
Definition send_issue (w : World) (reporter_email : string) (it : Item)
    : M unit :=
  let msg :=
    build_message w reporter_email EMAIL_SUBJECT EMAIL_BODY (Some [it]) in
  deliver w msg
    ("Email SENT to " +:+ reporter_email +:+ ": " +:+ item_key it)
    ("_" +:+ item_key it).

(** The loop of [main] when it is not. *)
Definition send_per_issue (w : World) (by_reporter : Groups) : M unit :=
  for_each by_reporter (λ entry,
    let reporter_email := entry.1 in
    let issues := entry.2 in
    for_each issues (send_issue w reporter_email)).

(** A result of a function that only reads the world, inside a run. *)
Definition lift {A} (r : Exn + A) : M A :=
  match r with
  | inl e => raise e
  | inr a => ret a
  end.

Definition main (w : World) : M unit :=
  try_except
    (do csvs <- lift (pick_latest_two_csvs w (EXPORT_DIR w));
     let prev_csv := csvs.1 in
     let today_csv := csvs.2 in
     logging_info ("Comparing " +:+ name prev_csv +:+ " -> "
                   +:+ name today_csv);;
     do prev_rows <- lift (load_csv w prev_csv);
     do today_rows <- lift (load_csv w today_csv);
     let new_keys := new_keys_of prev_rows today_rows in
     logging_info ("Found " +:+ pretty (size new_keys) +:+ " new issues.");;
     if decide (new_keys = ∅) then logging_info "No new issues. Done."
     else
       do by_reporter <- group_new_by_reporter today_rows new_keys;
       (if ONE_EMAIL_PER_REPORTER w then send_per_reporter w by_reporter
        else send_per_issue w by_reporter);;
       logging_info "Done.")
    (λ e, logging_exception ("Failure: " +:+ exn_str e);; raise e).

(** * Specification vocabulary *)

(** ** What the grouper reads from a row *)

(** The key of a row as the grouper sees it. *)
Definition row_key (r : Row) : string :=
  Str.strip (get_or_empty r COL_ISSUE_KEY).

(** The address a row resolves to: the stripped reporter email or, when that
    is empty, the stripped reporter; empty when both are. *)
Definition contact_of (r : Row) : string :=
  let email := Str.strip (get_or_empty r COL_REPORTER_EMAIL) in
  if Str.nonempty email then email
  else Str.strip (get_or_empty r COL_REPORTER).

(** The item appended for a row. *)
Definition item_of (r : Row) : Item :=
  {| item_key := row_key r;
     item_summary := Str.strip (get_or_empty r COL_SUMMARY);
     item_created := Str.strip (get_or_empty r COL_CREATED);
     item_reporter := Str.strip (get_or_empty r COL_REPORTER) |}.

(** The rows the grouper files: new key, and an address to file them under. *)
Definition filed (new_keys : gset string) (r : Row) : Prop :=
  row_key r ∈ new_keys ∧ contact_of r ≠ EmptyString.

Global Instance filed_dec new_keys r : Decision (filed new_keys r).
Proof. unfold filed. apply _. Defined.

(** The groups after the rows [rows], starting from [by_reporter]. *)
Definition groups_from (new_keys : gset string) (by_reporter : Groups)
    (rows : list Row) : Groups :=
  foldl (λ by_reporter r,
           if decide (filed new_keys r) then
             setdefault_append by_reporter (contact_of r) (item_of r)
           else by_reporter)
    by_reporter rows.

(** The warning logged for a row. *)
Definition skip_log (new_keys : gset string) (r : Row) : list Event :=
  if decide (row_key r ∈ new_keys ∧ contact_of r = EmptyString) then
    [Logged WARNING ("Skipping " +:+ row_key r +:+ ": no reporter email.")]
  else [].

(** The entries of the groups, one per item, in the order of the two loops
    of [main]. *)
Definition entries (by_reporter : Groups) : list (string * Item) :=
  by_reporter ≫= λ entry, pair entry.1 <$> entry.2.

(** ** The order of [sorted] *)

(** [x] may stand before [y] in a list sorted by [key]. *)
Definition key_le {A} (key : A → string) (x y : A) : Prop :=
  String.le (key x) (key y).

(** ** The body of an itemised message *)

(** The lines of the issues [l], each ended by a line feed. *)
Definition issue_lines (l : list Item) : string :=
  foldr (λ item text, issue_line item +:+ nl +:+ text) EmptyString l.

(** ** A world for the examples

    A POSIX machine without SMTP configuration, whose export folder holds
    nothing and whose clock stands still. *)
Definition example_world : World :=
  {| EXPORT_DIR := "exports";
     FROM_EMAIL := "no-reply@yourbank.local";
     REPLY_TO := "your.name@yourbank.local";
     SMTP_HOST := None;
     SMTP_PORT := 25;
     SMTP_USER := None;
     SMTP_PASS := None;
     USE_TLS := false;
     ONE_EMAIL_PER_REPORTER := true;
     windows := false;
     listdir := λ _, [];
     files := λ _, CannotOpen "[Errno 2] No such file or directory";
     clock := λ _, mkDatetime 2024 1 2 3 4 5 678;
     smtp := λ _ _, Some "[Errno 111] Connection refused" |}.

(** ** What a trace tells *)



(** No host: the variable [SMTP_HOST] is not set or is empty. *)
Definition host_not_set (w : World) : Prop :=
  SMTP_HOST w = None ∨ SMTP_HOST w = Some EmptyString.

(** Where [save_as_eml] writes a message after the trace [t]. *)
Definition draft_path (w : World) (t : Trace) (msg : EmailMessage)
    (suffix : string) : Path :=
  mkPath (DRAFTS_DIR w) (draft_name (strftime (clock w (length t))) msg suffix).

(** The messages [main] builds for the groups, in the order it builds them:
    one per reporter, or one per entry. *)
Definition messages_of (w : World) (by_reporter : Groups)
    : list EmailMessage :=
  if ONE_EMAIL_PER_REPORTER w then
    (λ entry, build_message w entry.1 EMAIL_SUBJECT EMAIL_BODY (Some entry.2))
    <$> by_reporter
  else
    (λ entry,
       build_message w entry.1 EMAIL_SUBJECT EMAIL_BODY (Some [entry.2]))
    <$> entries by_reporter.


(** The world [w] with the files [names] in its export folder, [contents]
    saying what opening each of them gives. *)
Definition with_exports (w : World) (names : list string)
    (contents : string → FileResult) : World :=
  {| EXPORT_DIR := EXPORT_DIR w;
     FROM_EMAIL := FROM_EMAIL w;
     REPLY_TO := REPLY_TO w;
     SMTP_HOST := SMTP_HOST w;
     SMTP_PORT := SMTP_PORT w;
     SMTP_USER := SMTP_USER w;
     SMTP_PASS := SMTP_PASS w;
     USE_TLS := USE_TLS w;
     ONE_EMAIL_PER_REPORTER := ONE_EMAIL_PER_REPORTER w;
     windows := windows w;
     listdir := λ folder,
       if decide (folder = EXPORT_DIR w) then names else listdir w folder;
     files := λ p,
       if decide (parent p = EXPORT_DIR w) then contents (name p)
       else files w p;
     clock := clock w;
     smtp := smtp w |}.

(** ** Plain CSV text

    The text of a list of records none of whose cells needs quoting: the
    cells of a record joined by commas, each record ended by a line feed. *)

Definition plain_char (a : ascii) : bool :=
  negb (Ascii.eqb a Csv.delimiter || Ascii.eqb a Csv.quotechar
        || Csv.is_crlf a).

Fixpoint plain_text (s : string) : bool :=
  match s with
  | EmptyString => true
  | String a s' => plain_char a && plain_text s'
  end.

(** A cell that is written as it is, and is not longer than the reader
    allows. *)
Definition plain_cell (s : string) : Prop :=
  plain_text s = true ∧ (Utf8.code_points s ≤ Csv.field_limit)%N.

Definition render_row (row : list string) : string :=
  String.concat "," row +:+ nl.

Definition render (records : list (list string)) : string :=
  foldr (λ row text, render_row row +:+ text) EmptyString records.

(** A text without line ends. *)
Definition one_line (s : string) : Prop :=
  ∀ a, a ∈ String.list_ascii_of_string s → Csv.is_crlf a = false.

(** ** One SMTP session *)

(** The calls [try_send_via_smtp] makes on a session when none of them
    raises: connect, upgrade to TLS when [USE_TLS] is set, log in when a user
    and a password are configured, send. *)
Definition session_plan (w : World) (host : string) (msg : EmailMessage)
    : list SmtpCall :=
  [SmtpConnect host (SMTP_PORT w)]
  ++ (if USE_TLS w then [SmtpStartTls] else [])
  ++ match SMTP_USER w, SMTP_PASS w with
     | Some ((String _ _) as user), Some ((String _ _) as password) =>
         [SmtpLogin user password]
     | _, _ => []
     end
  ++ [SmtpSendMessage msg].


(** The world [w] with an SMTP configuration and a server. *)
Definition with_smtp (w : World) (host : option string) (user password : option string)
    (tls : bool) (server : nat → SmtpCall → option string) : World :=
  {| EXPORT_DIR := EXPORT_DIR w;
     FROM_EMAIL := FROM_EMAIL w;
     REPLY_TO := REPLY_TO w;
     SMTP_HOST := host;
     SMTP_PORT := SMTP_PORT w;
     SMTP_USER := user;
     SMTP_PASS := password;
     USE_TLS := tls;
     ONE_EMAIL_PER_REPORTER := ONE_EMAIL_PER_REPORTER w;
     windows := windows w;
     listdir := listdir w;
     files := files w;
     clock := clock w;
     smtp := server |}.

(** The items filed under [email], none when the address is not a key of the
    groups. *)
Fixpoint group_items (by_reporter : Groups) (email : string) : list Item :=
  match by_reporter with
  | [] => []
  | (e, items) :: others =>
      if decide (e = email) then items else group_items others email
  end.

(** ** White space at the front of a string *)

(** Whether [s] starts with a white space character, for the recognisers
    [sp2] and [sp3] of [Str.strip_front]. *)
Definition starts_with_space (sp2 : ascii → ascii → bool)
    (sp3 : ascii → ascii → ascii → bool) (s : string) : bool :=
  match s with
  | EmptyString => false
  | String a s1 =>
      Str.is_space1 a
      || match s1 with
         | EmptyString => false
         | String b s2 =>
             sp2 a b
             || match s2 with
                | EmptyString => false
                | String c _ => sp3 a b c
                end
         end
  end.

(** ** CSV text with quoted cells and either line end

    A cell that holds a comma or a quote is written between quotes, with its
    quotes doubled; the other cells are written as they are.  A record ends
    with a line feed or with a carriage return and a line feed. *)

Definition crlf : string := String "013" (String "010" EmptyString).

Definition quote : string := String Csv.quotechar EmptyString.

Definition quote_cell (c : string) : string :=
  quote +:+ Str.replace Csv.quotechar (quote +:+ quote) c +:+ quote.

Definition write_cell (c : string) : string :=
  if plain_text c then c else quote_cell c.

(** A cell on one line that is not longer than the reader allows. *)
Definition line_cell (c : string) : Prop :=
  one_line c ∧ (Utf8.code_points c ≤ Csv.field_limit)%N.

Definition write_row (eol : string) (row : list string) : string :=
  String.concat "," (write_cell <$> row) +:+ eol.

Definition write_records (eol : string) (records : list (list string))
    : string :=
  foldr (λ row text, write_row eol row +:+ text) EmptyString records.

(** The reader after it has read the cell [c] of a record whose earlier
    cells are [fs], having started the cell in the state [st]. *)
Definition after_cell (st : Csv.ParserState) (fs : list string) (c : string)
    : Csv.Reader :=
  if plain_text c then
    match c with
    | EmptyString => Csv.mkReader st fs EmptyString 0
    | String _ _ => Csv.mkReader Csv.IN_FIELD fs c (Utf8.code_points c)
    end
  else Csv.mkReader Csv.QUOTE_IN_QUOTED_FIELD fs c (Utf8.code_points c).

(** * Properties *)

(** ** The new keys *)

Lemma elem_of_extract_issue_keys (rows : list Row) (k : string) :
  k ∈ extract_issue_keys rows ↔ ∃ row, row ∈ rows ∧ issue_key_of row = Some k.
Proof.
  unfold extract_issue_keys.
  rewrite elem_of_list_to_set, list_elem_of_omap. done.
Qed.

Lemma extract_issue_keys_Permutation (rows rows' : list Row) :
  rows ≡ₚ rows' → extract_issue_keys rows = extract_issue_keys rows'.
Proof.
  intros Hperm. apply set_eq. intros k.
  rewrite !elem_of_extract_issue_keys.
  split; intros (row & Hin & Hkey); exists row; split; try done.
  - by rewrite <- Hperm.
  - by rewrite Hperm.
Qed.

(** A row without the column, or with an empty cell in it, gives no key. *)
Lemma issue_key_of_absent (row : Row) :
  get row COL_ISSUE_KEY = None ∨ get row COL_ISSUE_KEY = Some EmptyString →
  issue_key_of row = None.
Proof. unfold issue_key_of. by intros [-> | ->]. Qed.

(** C1. The new keys are the keys extracted from the later snapshot that are
    not extracted from the earlier one; permuting the rows of either snapshot
    does not change them; and a snapshot compared with itself has none. *)
Theorem new_keys_of_spec (A A' B B' : list Row) :
  A ≡ₚ A' → B ≡ₚ B' →
  (∀ k, k ∈ new_keys_of A B ↔
        (∃ row, row ∈ B ∧ issue_key_of row = Some k)
        ∧ ¬ (∃ row, row ∈ A ∧ issue_key_of row = Some k))
  ∧ new_keys_of A B = extract_issue_keys B ∖ extract_issue_keys A
  ∧ new_keys_of A' B' = new_keys_of A B
  ∧ new_keys_of A A = ∅.
Proof.
  intros HA HB. unfold new_keys_of. split; [|split; [|split]].
  - intros k. by rewrite elem_of_difference, !elem_of_extract_issue_keys.
  - done.
  - by rewrite (extract_issue_keys_Permutation _ _ HA),
      (extract_issue_keys_Permutation _ _ HB).
  - apply difference_diag_L.
Qed.

Lemma new_keys_of_spec_witness :
  let r1 := mkRow {[ COL_ISSUE_KEY := Some "A-1" ]} [] in
  let r2 := mkRow {[ COL_ISSUE_KEY := Some " A-2" ]} [] in
  let r3 := mkRow {[ COL_ISSUE_KEY := Some "A-3 " ]} [] in
  new_keys_of [r2; r1] [r3; r2; r1] = new_keys_of [r1; r2] [r1; r2; r3]
  ∧ "A-3" ∈ new_keys_of [r1; r2] [r1; r2; r3].
Proof.
  intros r1 r2 r3.
  assert (Hperm1 : [r1; r2] ≡ₚ [r2; r1]) by apply perm_swap.
  assert (Hperm2 : [r1; r2; r3] ≡ₚ [r3; r2; r1]).
  { etrans; [apply perm_skip, perm_swap|].
    etrans; [apply perm_swap|]. apply perm_skip, perm_swap. }
  destruct (new_keys_of_spec [r1; r2] [r2; r1] [r1; r2; r3] [r3; r2; r1]
              Hperm1 Hperm2) as (Hmem & _ & Heq & _).
  split; [exact Heq|].
  apply Hmem. split.
  - exists r3. split; [|vm_compute; reflexivity].
    do 2 apply list_elem_of_further. apply list_elem_of_here.
  - intros (row & Hin & Hkey).
    apply list_elem_of_In in Hin. simpl in Hin.
    destruct Hin as [<- | [<- | []]]; vm_compute in Hkey; discriminate.
Defined.

(** C2. A cell that holds only white space passes the filter of
    [extract_issue_keys], which tests the cell before it is stripped, and puts
    the empty string into the set of keys. *)
Theorem extract_issue_keys_whitespace_only :
  let row := mkRow {[ COL_ISSUE_KEY := Some "   " ]} [] in
  Str.strip "   " = EmptyString
  ∧ issue_key_of row = Some EmptyString
  ∧ EmptyString ∈ extract_issue_keys [row].
Proof.
  intros row. split; [reflexivity|].
  assert (Hkey : issue_key_of row = Some EmptyString)
    by (vm_compute; reflexivity).
  split; [exact Hkey|].
  apply elem_of_extract_issue_keys. exists row.
  split; [apply list_elem_of_here|exact Hkey].
Qed.

(** ** The grouper *)

Lemma nonempty_true (s : string) : Str.nonempty s = true ↔ s ≠ EmptyString.
Proof. destruct s; simpl; split; congruence. Qed.

Lemma nonempty_false (s : string) : Str.nonempty s = false ↔ s = EmptyString.
Proof. destruct s; simpl; split; congruence. Qed.

(** One turn of the loop, read through the vocabulary above. *)
Lemma group_row_run (new_keys : gset string) (by_reporter : Groups) (r : Row)
    (t : Trace) :
  group_row new_keys by_reporter r t
  = (inr (groups_from new_keys by_reporter [r]), t ++ skip_log new_keys r).
Proof.
  unfold group_row, groups_from, skip_log, filed. simpl.
  fold (row_key r). fold (contact_of r).
  destruct (decide (row_key r ∈ new_keys)) as [Hin|Hin].
  - destruct (Str.nonempty (contact_of r)) eqn:Hc.
    + apply nonempty_true in Hc.
      rewrite decide_True by done. rewrite decide_False by tauto.
      unfold ret. by rewrite app_nil_r.
    + apply nonempty_false in Hc.
      rewrite decide_False by tauto. rewrite decide_True by done.
      reflexivity.
  - rewrite decide_False by tauto. rewrite decide_False by tauto.
    unfold ret. by rewrite app_nil_r.
Qed.

Lemma for_fold_group_row (new_keys : gset string) (rows : list Row)
    (by_reporter : Groups) (t : Trace) :
  for_fold rows by_reporter (group_row new_keys) t
  = (inr (groups_from new_keys by_reporter rows),
     t ++ (rows ≫= skip_log new_keys)).
Proof.
  revert by_reporter t. induction rows as [|r rows IH]; intros G t; simpl.
  - unfold ret. by rewrite app_nil_r.
  - unfold bind. rewrite group_row_run. rewrite IH.
    by rewrite <- app_assoc.
Qed.

(** The grouper always returns, and logs nothing but its warnings. *)
Lemma group_new_by_reporter_run (rows : list Row) (new_keys : gset string)
    (t : Trace) :
  group_new_by_reporter rows new_keys t
  = (inr (groups_from new_keys [] rows), t ++ (rows ≫= skip_log new_keys)).
Proof. apply for_fold_group_row. Qed.

Lemma groups_from_app (new_keys : gset string) (G : Groups)
    (rows1 rows2 : list Row) :
  groups_from new_keys G (rows1 ++ rows2)
  = groups_from new_keys (groups_from new_keys G rows1) rows2.
Proof. apply foldl_app. Qed.

Lemma entries_setdefault_append (G : Groups) (email : string) (it : Item) :
  entries (setdefault_append G email it) ≡ₚ entries G ++ [(email, it)].
Proof.
  unfold entries. induction G as [|[e items] G IH]; simpl.
  - done.
  - destruct (decide (e = email)) as [->|Hne]; simpl.
    + rewrite fmap_app. simpl. rewrite <- !app_assoc.
      f_equiv. apply Permutation_app_comm.
    + rewrite IH. by rewrite app_assoc.
Qed.

Lemma entries_groups_from (new_keys : gset string) (rows : list Row)
    (G : Groups) :
  entries (groups_from new_keys G rows)
  ≡ₚ entries G
     ++ ((λ r, (contact_of r, item_of r)) <$> filter (filed new_keys) rows).
Proof.
  revert G. induction rows as [|r rows IH]; intros G.
  - simpl. by rewrite app_nil_r.
  - change (r :: rows) with ([r] ++ rows).
    rewrite groups_from_app, IH. unfold groups_from at 1. simpl.
    rewrite filter_cons. destruct (decide (filed new_keys r)).
    + rewrite entries_setdefault_append. simpl. by rewrite <- app_assoc.
    + done.
Qed.




Lemma setdefault_append_nonempty (G : Groups) (email : string) (it : Item) :
  Forall (λ entry, entry.2 ≠ []) G →
  Forall (λ entry, entry.2 ≠ []) (setdefault_append G email it).
Proof.
  induction 1 as [|[e items] G He HG IH]; simpl.
  - by repeat constructor.
  - destruct (decide (e = email)); constructor; try done.
    simpl. by destruct items.
Qed.

(** No address is filed without an item. *)
Lemma groups_from_nonempty (new_keys : gset string) (rows : list Row)
    (G : Groups) :
  Forall (λ entry, entry.2 ≠ []) G →
  Forall (λ entry, entry.2 ≠ []) (groups_from new_keys G rows).
Proof.
  revert G. induction rows as [|r rows IH]; intros G HG; [done|].
  change (r :: rows) with ([r] ++ rows). rewrite groups_from_app.
  apply IH. unfold groups_from. simpl.
  destruct (decide (filed new_keys r)); [|done].
  by apply setdefault_append_nonempty.
Qed.

(** C3. A row with a new key whose reporter email and reporter are both
    empty once stripped is passed over: the grouper returns, with the groups
    it returns without the row and one more warning in the log; every item of
    these groups is filed under a non-empty address by a row that resolves to
    that address; and every message [main] builds from them goes to such an
    address. *)
Theorem group_skips_row_without_contact (rows1 rows2 : list Row) (r : Row)
    (new_keys : gset string) (t : Trace) :
  row_key r ∈ new_keys →
  Str.strip (get_or_empty r COL_REPORTER_EMAIL) = EmptyString →
  Str.strip (get_or_empty r COL_REPORTER) = EmptyString →
  ∃ by_reporter log1 log2,
    group_new_by_reporter (rows1 ++ r :: rows2) new_keys t
    = (inr by_reporter,
       t ++ log1
         ++ Logged WARNING
              ("Skipping " +:+ row_key r +:+ ": no reporter email.")
         :: log2)
    ∧ group_new_by_reporter (rows1 ++ rows2) new_keys t
      = (inr by_reporter, t ++ log1 ++ log2)
    ∧ (∀ email items it,
         (email, items) ∈ by_reporter → it ∈ items →
         email ≠ EmptyString
         ∧ ∃ r', r' ∈ rows1 ++ rows2 ∧ row_key r' ∈ new_keys
                 ∧ contact_of r' = email ∧ item_of r' = it)
    ∧ (∀ w msg,
         msg ∈ messages_of w by_reporter →
         ∃ email r',
           msg_To msg = Some email ∧ email ≠ EmptyString
           ∧ r' ∈ rows1 ++ rows2 ∧ row_key r' ∈ new_keys
           ∧ contact_of r' = email).
Proof.
  intros Hkey Hemail Hreporter.
  assert (Hcontact : contact_of r = EmptyString).
  { unfold contact_of. by rewrite Hemail, Hreporter. }
  exists (groups_from new_keys [] (rows1 ++ rows2)),
    (rows1 ≫= skip_log new_keys), (rows2 ≫= skip_log new_keys).
  assert (Hfiled : ∀ email items it,
    (email, items) ∈ groups_from new_keys [] (rows1 ++ rows2) → it ∈ items →
    email ≠ EmptyString
    ∧ ∃ r', r' ∈ rows1 ++ rows2 ∧ row_key r' ∈ new_keys
            ∧ contact_of r' = email ∧ item_of r' = it).
  { intros email items it Hgroup Hit.
    assert (Hentry :
      (email, it) ∈ entries (groups_from new_keys [] (rows1 ++ rows2))).
    { unfold entries. apply list_elem_of_bind. exists (email, items).
      split; [|done]. simpl. by apply list_elem_of_fmap_2. }
    rewrite entries_groups_from in Hentry. simpl in Hentry.
    apply list_elem_of_fmap in Hentry as (r' & Heq & Hr').
    apply list_elem_of_filter in Hr' as [[Hk Hc] Hr'].
    inversion Heq; subst. split; [done|]. by exists r'. }
  split; [|split; [|split]].
  - rewrite group_new_by_reporter_run. f_equal.
    + f_equal. rewrite !groups_from_app.
      change (r :: rows2) with ([r] ++ rows2). rewrite groups_from_app.
      f_equal. unfold groups_from. simpl.
      rewrite decide_False; [done|]. unfold filed. tauto.
    + f_equal. rewrite bind_app. f_equal. simpl.
      unfold skip_log at 1. by rewrite decide_True.
  - rewrite group_new_by_reporter_run. by rewrite bind_app.
  - exact Hfiled.
  - intros w msg Hmsg. unfold messages_of in Hmsg.
    destruct (ONE_EMAIL_PER_REPORTER w).
    + apply list_elem_of_fmap in Hmsg as ([email items] & -> & Hgroup).
      assert (Hne : items ≠ []).
      { assert (Hall := groups_from_nonempty new_keys (rows1 ++ rows2) []
                          (Forall_nil_2 _)).
        rewrite Forall_forall in Hall. apply (Hall _ Hgroup). }
      destruct items as [|it items]; [done|].
      destruct (Hfiled email (it :: items) it Hgroup)
        as (Hemail' & r' & Hr' & Hk & Hc & _); [apply list_elem_of_here|].
      by exists email, r'.
    + apply list_elem_of_fmap in Hmsg as ([email it] & -> & Hentry).
      unfold entries in Hentry.
      apply list_elem_of_bind in Hentry as ([email' items] & Hit & Hgroup).
      simpl in Hit. apply list_elem_of_fmap in Hit as (it' & Heq & Hit).
      inversion Heq; subst.
      destruct (Hfiled email' items it' Hgroup Hit)
        as (Hemail' & r' & Hr' & Hk & Hc & _).
      by exists email', r'.
Qed.

Lemma group_skips_row_without_contact_witness :
  let r1 := mkRow {[ COL_ISSUE_KEY := Some "A-3";
                     COL_REPORTER := Some "alice@x.com" ]} [] in
  let r := mkRow {[ COL_ISSUE_KEY := Some "A-4";
                    COL_REPORTER_EMAIL := Some "  " ]} [] in
  let new_keys : gset string := {[ "A-3"; "A-4" ]} in
  (row_key r ∈ new_keys
   ∧ Str.strip (get_or_empty r COL_REPORTER_EMAIL) = EmptyString
   ∧ Str.strip (get_or_empty r COL_REPORTER) = EmptyString)
  ∧ ∃ by_reporter log1 log2,
      group_new_by_reporter [r1; r] new_keys []
      = (inr by_reporter,
         log1
         ++ Logged WARNING "Skipping A-4: no reporter email." :: log2)
      ∧ group_new_by_reporter [r1] new_keys [] = (inr by_reporter, log1 ++ log2).
Proof.
  intros r1 r new_keys.
  assert (H1 : row_key r ∈ new_keys) by (vm_compute; reflexivity).
  assert (H2 : Str.strip (get_or_empty r COL_REPORTER_EMAIL) = EmptyString)
    by (vm_compute; reflexivity).
  assert (H3 : Str.strip (get_or_empty r COL_REPORTER) = EmptyString)
    by (vm_compute; reflexivity).
  split; [by repeat split|].
  destruct (group_skips_row_without_contact [r1] [] r new_keys [] H1 H2 H3)
    as (by_reporter & log1 & log2 & Hwith & Hwithout & _).
  exists by_reporter, log1, log2. split; [exact Hwith|exact Hwithout].
Defined.




(** ** Strings *)

Lemma string_app_cons (a : ascii) (s t : string) :
  String a s +:+ t = String a (s +:+ t).
Proof. reflexivity. Qed.

Lemma string_app_nil_l (s : string) : EmptyString +:+ s = s.
Proof. reflexivity. Qed.

Lemma string_app_nil_r (s : string) : s +:+ EmptyString = s.
Proof.
  induction s as [|a s IH]; [done|]. by rewrite string_app_cons, IH.
Qed.

Lemma string_app_assoc (s1 s2 s3 : string) :
  (s1 +:+ s2) +:+ s3 = s1 +:+ (s2 +:+ s3).
Proof.
  induction s1 as [|a s1 IH]; [done|]. by rewrite !string_app_cons, IH.
Qed.

Lemma string_length_app (s1 s2 : string) :
  String.length (s1 +:+ s2) = String.length s1 + String.length s2.
Proof.
  induction s1 as [|a s1 IH]; [done|].
  rewrite string_app_cons. simpl. by rewrite IH.
Qed.

(** Two equal concatenations whose first parts have the same length agree
    part by part. *)
Lemma string_app_inj_length (s1 s2 r1 r2 : string) :
  String.length s1 = String.length s2 →
  s1 +:+ r1 = s2 +:+ r2 → s1 = s2 ∧ r1 = r2.
Proof.
  revert s2. induction s1 as [|a s1 IH]; intros [|b s2] Hlen Heq;
    try discriminate.
  - done.
  - rewrite !string_app_cons in Heq.
    injection Heq as -> Heq. injection Hlen as Hlen.
    destruct (IH s2 Hlen Heq) as [-> ->]. done.
Qed.

(** ** [sorted] *)

Section sorted_facts.
Context {A : Type} (key : A → string).

Lemma leb_key_le (x y : A) :
  String.leb (key x) (key y) = true ↔ key_le key x y.
Proof. unfold key_le, String.le. by rewrite Is_true_true. Qed.

Lemma leb_false_key_le (x y : A) :
  String.leb (key x) (key y) = false → key_le key y x ∧ key x ≠ key y.
Proof.
  intros Hxy. split.
  - destruct (total String.le (key x) (key y)) as [Hle|Hle]; [|done].
    apply leb_key_le in Hle. congruence.
  - intros Heq. rewrite Heq in Hxy.
    assert (Hrefl : key_le key y y) by (unfold key_le; reflexivity).
    apply leb_key_le in Hrefl. congruence.
Qed.

Global Instance key_le_trans : Transitive (key_le key).
Proof. intros x y z. unfold key_le. apply transitivity. Qed.

Lemma insert_sorted_Permutation (x : A) (l : list A) :
  insert_sorted key x l ≡ₚ x :: l.
Proof.
  induction l as [|y l IH]; simpl; [done|].
  destruct (String.leb (key x) (key y)); [done|].
  rewrite IH. apply perm_swap.
Qed.

Lemma sorted_Permutation (l : list A) : sorted key l ≡ₚ l.
Proof.
  induction l as [|x l IH]; simpl; [done|].
  by rewrite insert_sorted_Permutation, IH.
Qed.

Lemma HdRel_insert_sorted (z x : A) (l : list A) :
  key_le key z x → HdRel (key_le key) z l →
  HdRel (key_le key) z (insert_sorted key x l).
Proof.
  intros Hzx Hz. destruct l as [|y l]; simpl; [by constructor|].
  destruct (String.leb (key x) (key y)); constructor; [done|].
  by inversion Hz.
Qed.

Lemma Sorted_insert_sorted (x : A) (l : list A) :
  Sorted (key_le key) l → Sorted (key_le key) (insert_sorted key x l).
Proof.
  induction 1 as [|y l Hl IH Hy]; simpl; [by repeat constructor|].
  destruct (String.leb (key x) (key y)) eqn:Hxy.
  - constructor; [by constructor|]. constructor. by apply leb_key_le.
  - constructor; [done|].
    apply HdRel_insert_sorted; [|done]. by apply leb_false_key_le.
Qed.

Lemma Sorted_sorted (l : list A) : Sorted (key_le key) (sorted key l).
Proof.
  induction l as [|x l IH]; simpl; [constructor|].
  by apply Sorted_insert_sorted.
Qed.



Lemma key_inj_NoDup (l : list A) (x y : A) :
  NoDup (key <$> l) → x ∈ l → y ∈ l → key x = key y → x = y.
Proof.
  induction l as [|z l IH]; intros Hnd Hx Hy Hxy; [by inversion Hx|].
  rewrite fmap_cons in Hnd. apply NoDup_cons in Hnd as [Hz Hnd].
  apply elem_of_cons in Hx as [->|Hx], Hy as [->|Hy]; [done| | |by apply IH].
  - exfalso. apply Hz. rewrite Hxy. by apply list_elem_of_fmap_2.
  - exfalso. apply Hz. rewrite <- Hxy. by apply list_elem_of_fmap_2.
Qed.

(** With pairwise distinct keys the sorted list does not depend on the
    order of the input. *)
Lemma sorted_Permutation_NoDup (l1 l2 : list A) :
  l1 ≡ₚ l2 → NoDup (key <$> l1) → sorted key l1 = sorted key l2.
Proof.
  intros Hperm Hnd.
  apply (Sorted_unique_strong (key_le key)).
  - intros x1 x2 Hx1 Hx2 H12 H21.
    apply (key_inj_NoDup l1); [done|..].
    + by rewrite <- (sorted_Permutation l1).
    + by rewrite Hperm, <- (sorted_Permutation l2).
    + apply (anti_symm String.le); done.
  - apply Sorted_sorted.
  - apply Sorted_sorted.
  - by rewrite !sorted_Permutation.
Qed.
End sorted_facts.

(** ** [build_message] *)

Lemma foldl_issue_lines (init : string) (l : list Item) :
  foldl (λ final_body item, final_body +:+ (issue_line item +:+ nl)) init l
  = init +:+ issue_lines l.
Proof.
  revert init. induction l as [|x l IH]; intros init; simpl.
  - by rewrite string_app_nil_r.
  - rewrite IH. by rewrite !string_app_assoc.
Qed.

(** The body of a message with a non-empty list of issues. *)
Lemma build_message_content (w : World) (to_addr subject body : string)
    (issues : list Item) :
  issues ≠ [] →
  msg_content (build_message w to_addr subject body (Some issues))
  = body +:+ issues_header +:+ issue_lines (sorted item_key issues)
    +:+ issues_footer.
Proof.
  intros Hne. destruct issues as [|x issues]; [done|].
  unfold build_message, msg_content.
  rewrite foldl_issue_lines. by rewrite !string_app_assoc.
Qed.




(** ** Delivery without an SMTP host *)

Lemma try_send_via_smtp_no_host (w : World) (msg : EmailMessage) (t : Trace) :
  host_not_set w →
  try_send_via_smtp w msg t = (inr (false, "SMTP_HOST not set"), t).
Proof. unfold try_send_via_smtp. by intros [-> | ->]. Qed.

Lemma save_as_eml_run (w : World) (msg : EmailMessage) (suffix : string)
    (t : Trace) :
  save_as_eml w msg suffix t
  = (inr (draft_path w t msg suffix),
     t ++ [FileWritten (draft_path w t msg suffix) msg]).
Proof. reflexivity. Qed.





(** ** A run without new keys *)

(** C9. When the two snapshots are found and read and the later one has no
    new key, [main] logs the comparison, the count and the end of the run and
    returns: the trace gains these three records and nothing else, no
    warning of the grouper, no SMTP call, no draft. *)
Theorem main_no_new_keys (w : World) (prev_csv today_csv : Path)
    (prev_rows today_rows : list Row) (t : Trace) :
  pick_latest_two_csvs w (EXPORT_DIR w) = inr (prev_csv, today_csv) →
  load_csv w prev_csv = inr prev_rows →
  load_csv w today_csv = inr today_rows →
  new_keys_of prev_rows today_rows = ∅ →
  main w t
  = (inr tt,
     t ++ [Logged INFO ("Comparing " +:+ name prev_csv +:+ " -> "
                        +:+ name today_csv);
           Logged INFO "Found 0 new issues.";
           Logged INFO "No new issues. Done."]).
Proof.
  intros Hpick Hprev Htoday Hnew.
  unfold main, try_except, bind. rewrite Hpick. simpl.
  rewrite Hprev, Htoday. simpl. rewrite Hnew.
  rewrite decide_True by done. rewrite size_empty.
  unfold logging_info, emit. rewrite <- !app_assoc. reflexivity.
Qed.

Lemma main_no_new_keys_witness :
  let header := "Issue key,Summary,Reporter,Reporter email,Created" +:+ nl in
  let old := header +:+ "A-1,one,bob,bob@x.com,2024-01-01" +:+ nl
             +:+ "A-2,two,eve,eve@x.com,2024-01-01" +:+ nl in
  let new := header +:+ "A-2,two,eve,eve@x.com,2024-01-01" +:+ nl
             +:+ "A-1,one (edited),bob,bob@x.com,2024-01-01" +:+ nl in
  let w := with_exports example_world ["2024-01-02.csv"; "2024-01-01.csv"]
             (λ n, if decide (n = "2024-01-01.csv") then Contents old
                   else Contents new) in
  main w []
  = (inr tt,
     [Logged INFO "Comparing 2024-01-01.csv -> 2024-01-02.csv";
      Logged INFO "Found 0 new issues.";
      Logged INFO "No new issues. Done."]).
Proof.
  intros header old new w.
  destruct (load_csv w (mkPath "exports" "2024-01-01.csv"))
    as [e|prev_rows] eqn:Hprev; [vm_compute in Hprev; discriminate|].
  destruct (load_csv w (mkPath "exports" "2024-01-02.csv"))
    as [e|today_rows] eqn:Htoday; [vm_compute in Htoday; discriminate|].
  apply (main_no_new_keys w (mkPath "exports" "2024-01-01.csv")
           (mkPath "exports" "2024-01-02.csv") prev_rows today_rows []).
  - vm_compute. reflexivity.
  - exact Hprev.
  - exact Htoday.
  - vm_compute in Hprev. vm_compute in Htoday.
    injection Hprev as <-. injection Htoday as <-.
    vm_compute. reflexivity.
Defined.

(** ** The selector *)

Lemma list_split_last_two {A} (l : list A) :
  2 ≤ length l → ∃ init a b, l = init ++ [a; b].
Proof.
  intros Hlen.
  destruct l as [|b l'] using rev_ind; [simpl in Hlen; lia|].
  destruct l' as [|a init] using rev_ind.
  { simpl in Hlen. lia. }
  exists init, a, b. by rewrite <- app_assoc.
Qed.

Lemma matches_glob_csv (w : World) (folder : string) :
  name <$> glob_csv w folder
  = filter (λ n, matches_csv w n = true) (listdir w folder).
Proof.
  unfold glob_csv. rewrite <- list_fmap_compose.
  apply list_fmap_id.
Qed.

(** C6. The selector raises its error exactly when fewer than two names of
    the folder match the pattern; otherwise it returns two paths of the
    folder whose names are, among the matching names, the greatest and,
    among the others, the greatest again. *)
Theorem pick_latest_two_csvs_spec (w : World) (folder : string) :
  let matching := filter (λ n, matches_csv w n = true) (listdir w folder) in
  match pick_latest_two_csvs w folder with
  | inl e =>
      e = RuntimeError "Need at least two CSVs (yesterday & today)."
      ∧ length matching < 2
  | inr (older, newer) =>
      2 ≤ length matching
      ∧ parent older = folder ∧ parent newer = folder
      ∧ ∃ others,
          matching ≡ₚ others ++ [name older; name newer]
          ∧ Forall (λ n, String.le n (name older)) others
          ∧ String.le (name older) (name newer)
  end.
Proof.
  intros matching. unfold pick_latest_two_csvs.
  assert (Hperm := sorted_Permutation name (glob_csv w folder)).
  assert (Hsorted := Sorted_sorted name (glob_csv w folder)).
  assert (Hlen : length (sorted name (glob_csv w folder)) = length matching).
  { rewrite Hperm. unfold matching. rewrite <- matches_glob_csv.
    by rewrite length_fmap. }
  destruct (decide (length (sorted name (glob_csv w folder)) < 2))
    as [Hshort|Hlong].
  { split; [done|lia]. }
  destruct (list_split_last_two (sorted name (glob_csv w folder)))
    as (init & older & newer & Hfiles); [lia|].
  rewrite Hfiles in *. clear Hfiles.
  rewrite length_app. simpl.
  replace (length init + 2 - 2) with (length init + 0) by lia.
  replace (length init + 2 - 1) with (length init + 1) by lia.
  rewrite !lookup_app_r by lia.
  replace (length init + 0 - length init) with 0 by lia.
  replace (length init + 1 - length init) with 1 by lia.
  simpl.
  assert (Hin : ∀ p, p ∈ init ++ [older; newer] → parent p = folder).
  { intros p Hp. rewrite Hperm in Hp. unfold glob_csv in Hp.
    apply list_elem_of_fmap in Hp as (n & -> & _). done. }
  split; [lia|].
  split; [apply Hin; set_solver|]. split; [apply Hin; set_solver|].
  exists (name <$> init). split; [|split].
  - unfold matching. rewrite <- matches_glob_csv, <- Hperm.
    by rewrite fmap_app.
  - apply Sorted_StronglySorted in Hsorted; [|apply _].
    apply StronglySorted_app in Hsorted as (Hcross & _ & _).
    apply Forall_fmap, Forall_forall. intros p Hp. simpl.
    apply (Hcross p older); [done|set_solver].
  - apply Sorted_StronglySorted in Hsorted; [|apply _].
    apply StronglySorted_app in Hsorted as (_ & _ & Htail).
    inversion Htail as [|? ? _ Hall]; subst.
    by inversion Hall.
Qed.

(** The selector on a folder with three exports, a text file and the drafts
    folder, and on a folder with one export. *)
Example pick_latest_two_csvs_example :
  let names := ["2024-01-02.csv"; "notes.txt"; "2024-01-03.csv"; "_drafts";
                "2024-01-01.csv"] in
  pick_latest_two_csvs (with_exports example_world names (λ _, CannotOpen "-"))
    "exports"
  = inr (mkPath "exports" "2024-01-02.csv", mkPath "exports" "2024-01-03.csv")
  ∧ pick_latest_two_csvs
      (with_exports example_world ["2024-01-01.csv"; "notes.txt"]
         (λ _, CannotOpen "-"))
      "exports"
    = inl (RuntimeError "Need at least two CSVs (yesterday & today).").
Proof. split; vm_compute; reflexivity. Qed.

(** ** The names of the drafts *)

Lemma digits_S (width : nat) (n : N) :
  digits (S width) n
  = String (digit_char ((n / 10 ^ N.of_nat width) mod 10)%N) (digits width n).
Proof. reflexivity. Qed.

Lemma digits_length (width : nat) (n : N) :
  String.length (digits width n) = width.
Proof.
  induction width as [|width IH]; [done|].
  rewrite digits_S. cbn [String.length]. by rewrite IH.
Qed.




Lemma strftime_length (d : datetime) : String.length (strftime d) = 22.
Proof.
  unfold strftime. rewrite !string_length_app, !digits_length. done.
Qed.


Lemma string_app_inj_r (s1 s2 r : string) : s1 +:+ r = s2 +:+ r → s1 = s2.
Proof.
  intros Heq.
  assert (Hlen : String.length s1 = String.length s2).
  { apply (f_equal String.length) in Heq.
    rewrite !string_length_app in Heq. lia. }
  by destruct (string_app_inj_length s1 s2 r r Hlen Heq).
Qed.

Lemma draft_name_eq_iff (ts1 ts2 : string) (msg1 msg2 : EmailMessage)
    (suffix1 suffix2 : string) :
  String.length ts1 = String.length ts2 →
  draft_name ts1 msg1 suffix1 = draft_name ts2 msg2 suffix2
  ↔ ts1 = ts2 ∧ safe_to msg1 +:+ suffix1 = safe_to msg2 +:+ suffix2.
Proof.
  intros Hlen. unfold draft_name. split.
  - intros Heq.
    apply string_app_inj_length in Heq as [_ Heq]; [|done].
    apply string_app_inj_length in Heq as [Hts Heq]; [|done].
    apply string_app_inj_length in Heq as [_ Heq]; [|done].
    rewrite <- !string_app_assoc in Heq.
    apply string_app_inj_r in Heq. done.
  - intros [-> Heq].
    rewrite <- !(string_app_assoc (safe_to _)). by rewrite Heq.
Qed.




(** ** The loader *)

(** *** Lines of a plain text *)

Lemma plain_char_cases (a : ascii) :
  plain_char a = true →
  Ascii.eqb a Csv.delimiter = false ∧ Ascii.eqb a Csv.quotechar = false
  ∧ Csv.is_crlf a = false.
Proof.
  unfold plain_char. intros H. apply negb_true_iff in H.
  apply orb_false_iff in H as [H Hcrlf].
  apply orb_false_iff in H as [Hd Hq]. done.
Qed.

Lemma is_crlf_false (a : ascii) :
  Csv.is_crlf a = false →
  Ascii.eqb a "010" = false ∧ Ascii.eqb a "013" = false.
Proof. unfold Csv.is_crlf. by intros [? ?]%orb_false_iff. Qed.

Lemma one_line_nil : one_line EmptyString.
Proof. intros a Ha. simpl in Ha. by apply elem_of_nil in Ha. Qed.

Lemma one_line_cons (a : ascii) (s : string) :
  one_line (String a s) ↔ Csv.is_crlf a = false ∧ one_line s.
Proof.
  unfold one_line. simpl. setoid_rewrite elem_of_cons. split.
  - intros H. split; [by apply H; left|]. intros b Hb. apply H. by right.
  - intros [Ha Hs] b [->|Hb]; [done|by apply Hs].
Qed.

Lemma one_line_app (s1 s2 : string) :
  one_line (s1 +:+ s2) ↔ one_line s1 ∧ one_line s2.
Proof.
  induction s1 as [|a s1 IH].
  - rewrite string_app_nil_l. split; [|tauto].
    intros H. split; [apply one_line_nil|done].
  - rewrite string_app_cons, !one_line_cons, IH. tauto.
Qed.

Lemma plain_text_one_line (s : string) : plain_text s = true → one_line s.
Proof.
  induction s as [|a s IH]; intros H; [apply one_line_nil|].
  simpl in H. apply andb_true_iff in H as [Ha Hs].
  apply one_line_cons. split; [|by apply IH].
  by apply plain_char_cases in Ha as (_ & _ & ?).
Qed.

Lemma one_line_concat (row : list string) :
  Forall plain_cell row → one_line (String.concat "," row).
Proof.
  induction 1 as [|c row [Hc _] Hrow IH]; [apply one_line_nil|].
  destruct row as [|c' row]; [by apply plain_text_one_line|].
  change (String.concat "," (c :: c' :: row))
    with (c +:+ "," +:+ String.concat "," (c' :: row)).
  rewrite !one_line_app. split; [by apply plain_text_one_line|].
  split; [|done]. apply one_line_cons. split; [done|apply one_line_nil].
Qed.

Lemma lines_from_one_line (s cur rest : string) :
  one_line s →
  lines_from cur (s +:+ nl +:+ rest)
  = (cur +:+ s +:+ nl) :: lines_from EmptyString rest.
Proof.
  revert cur. induction s as [|a s IH]; intros cur Hs.
  - reflexivity.
  - apply one_line_cons in Hs as [Ha Hs].
    apply is_crlf_false in Ha as [Hlf Hcr].
    rewrite string_app_cons. cbn [lines_from]. rewrite Hlf, Hcr.
    rewrite IH by done. by rewrite string_app_assoc.
Qed.

Lemma lines_of_render (records : list (list string)) :
  Forall (Forall plain_cell) records →
  lines_of (render records) = render_row <$> records.
Proof.
  unfold lines_of. induction 1 as [|row records Hrow Hrecords IH]; [done|].
  cbn [render foldr]. unfold render_row at 1.
  rewrite string_app_assoc.
  rewrite lines_from_one_line by (by apply one_line_concat).
  rewrite fmap_cons. f_equal. exact IH.
Qed.

(** *** The reader on a plain record *)

Lemma code_points_app (s1 s2 : string) :
  Utf8.code_points (s1 +:+ s2)
  = (Utf8.code_points s1 + Utf8.code_points s2)%N.
Proof.
  induction s1 as [|a s1 IH]; [done|].
  rewrite string_app_cons. cbn [Utf8.code_points]. rewrite IH. lia.
Qed.

Lemma feed_line_cons (r : Csv.Reader) (a : ascii) (line : string) :
  Csv.feed_line r (String a line)
  = match Csv.parse_process_char r (Some a) with
    | inl e => inl e
    | inr r' => Csv.feed_line r' line
    end.
Proof. reflexivity. Qed.

(** A plain character joins the field that is being read. *)
Lemma parse_add_char_plain (a : ascii) (st : Csv.ParserState)
    (fs : list string) (f : string) :
  (Utf8.code_points (f +:+ String a EmptyString) ≤ Csv.field_limit)%N →
  Csv.parse_add_char a (Csv.mkReader st fs f (Utf8.code_points f))
  = inr (Csv.mkReader st fs (f +:+ String a EmptyString)
           (Utf8.code_points (f +:+ String a EmptyString))).
Proof.
  intros Hlen. rewrite code_points_app in *. cbn [Utf8.code_points] in *.
  unfold Csv.parse_add_char. cbn [Csv.state Csv.fields Csv.field Csv.field_len].
  destruct (Utf8.cont a).
  - do 2 f_equal; lia.
  - destruct (N.leb_spec Csv.field_limit (Utf8.code_points f)); [lia|].
    do 2 f_equal; lia.
Qed.

Lemma feed_in_field (c f rest : string) (fs : list string) :
  plain_text c = true →
  (Utf8.code_points (f +:+ c) ≤ Csv.field_limit)%N →
  Csv.feed_line (Csv.mkReader Csv.IN_FIELD fs f (Utf8.code_points f))
    (c +:+ rest)
  = Csv.feed_line
      (Csv.mkReader Csv.IN_FIELD fs (f +:+ c) (Utf8.code_points (f +:+ c)))
      rest.
Proof.
  revert f. induction c as [|a c IH]; intros f Hplain Hlen.
  - by rewrite string_app_nil_l, string_app_nil_r.
  - simpl in Hplain. apply andb_true_iff in Hplain as [Ha Hc].
    apply plain_char_cases in Ha as (Hd & Hq & Hcrlf).
    rewrite string_app_cons, feed_line_cons.
    unfold Csv.parse_process_char. cbn [Csv.state].
    rewrite Hcrlf, Hd. unfold Csv.add_char_then.
    replace (f +:+ String a c) with ((f +:+ String a EmptyString) +:+ c)
      in * by (by rewrite string_app_assoc).
    rewrite parse_add_char_plain.
    + unfold Csv.set_state.
      cbn [Csv.state Csv.fields Csv.field Csv.field_len].
      by apply IH.
    + rewrite code_points_app in Hlen. lia.
Qed.

(** A plain cell read from the start of a field. *)
Lemma feed_cell (c rest : string) (st : Csv.ParserState) (fs : list string) :
  st = Csv.START_RECORD ∨ st = Csv.START_FIELD →
  plain_cell c → c ≠ EmptyString →
  Csv.feed_line (Csv.mkReader st fs EmptyString 0) (c +:+ rest)
  = Csv.feed_line (Csv.mkReader Csv.IN_FIELD fs c (Utf8.code_points c)) rest.
Proof.
  intros Hst [Hplain Hlen] Hne. destruct c as [|a c]; [done|].
  simpl in Hplain. apply andb_true_iff in Hplain as [Ha Hc].
  apply plain_char_cases in Ha as (Hd & Hq & Hcrlf).
  rewrite string_app_cons, feed_line_cons.
  assert (Hstart :
    Csv.parse_process_char (Csv.mkReader st fs EmptyString 0) (Some a)
    = inr (Csv.mkReader Csv.IN_FIELD fs (String a EmptyString)
             (Utf8.code_points (String a EmptyString)))).
  { assert (Hadd := parse_add_char_plain a st fs EmptyString).
    rewrite string_app_nil_l in Hadd. cbn [Utf8.code_points] in Hadd.
    unfold Csv.parse_process_char, Csv.start_field, Csv.add_char_then.
    cbn [Csv.state].
    destruct Hst as [-> | ->]; rewrite Hcrlf, Hq, Hd, Hadd; try done;
      cbn [Utf8.code_points] in Hlen; unfold Csv.field_limit in *; lia. }
  rewrite Hstart.
  change (String a c) with (String a EmptyString +:+ c).
  apply feed_in_field; [done|exact Hlen].
Qed.

Lemma concat_cons_cons (c c' : string) (cells : list string) :
  String.concat "," (c :: c' :: cells)
  = c +:+ "," +:+ String.concat "," (c' :: cells).
Proof. reflexivity. Qed.

(** The cells of a plain record, read from the start of a field up to the
    end of the line. *)
Lemma feed_cells (cells : list string) (st : Csv.ParserState)
    (fs : list string) :
  Forall plain_cell cells → cells ≠ [] →
  st = Csv.START_FIELD ∨ (st = Csv.START_RECORD ∧ cells ≠ [EmptyString]) →
  Csv.feed_line (Csv.mkReader st fs EmptyString 0)
    (String.concat "," cells +:+ nl)
  = inr (Csv.mkReader Csv.START_RECORD (fs ++ cells) EmptyString 0).
Proof.
  intros Hcells. revert st fs.
  induction Hcells as [|c cells Hc Hcells IH]; intros st fs Hne Hst; [done|].
  assert (Hst' : st = Csv.START_RECORD ∨ st = Csv.START_FIELD) by tauto.
  destruct cells as [|c' cells].
  - (* the last cell of the record *)
    cbn [String.concat].
    destruct (decide (c = EmptyString)) as [->|Hcne].
    + destruct Hst as [->|[_ ?]]; [reflexivity|done].
    + rewrite feed_cell by done. reflexivity.
  - rewrite concat_cons_cons, !string_app_assoc.
    destruct (decide (c = EmptyString)) as [->|Hcne].
    + rewrite string_app_nil_l, string_app_cons, feed_line_cons.
      replace (Csv.parse_process_char
                 (Csv.mkReader st fs EmptyString 0) (Some ","%char))
        with (inr (B := Csv.Reader)
                (A := Exn)
                (Csv.mkReader Csv.START_FIELD (fs ++ [EmptyString])
                   EmptyString 0))
        by (by destruct Hst' as [-> | ->]).
      rewrite string_app_nil_l, IH by (done || by left).
      by rewrite <- app_assoc.
    + rewrite feed_cell by done.
      rewrite string_app_cons, feed_line_cons.
      change (Csv.parse_process_char
                (Csv.mkReader Csv.IN_FIELD fs c (Utf8.code_points c))
                (Some ","%char))
        with (inr (B := Csv.Reader)
                (A := Exn)
                (Csv.mkReader Csv.START_FIELD (fs ++ [c]) EmptyString 0)).
      rewrite string_app_nil_l, IH by (done || by left).
      by rewrite <- app_assoc.
Qed.

Lemma feed_render_row (row : list string) :
  Forall plain_cell row → row ≠ [EmptyString] →
  Csv.feed_line Csv.reset (render_row row)
  = inr (Csv.mkReader Csv.START_RECORD row EmptyString 0).
Proof.
  intros Hrow Hne. unfold render_row. destruct row as [|c row].
  - reflexivity.
  - unfold Csv.reset. rewrite feed_cells; [done..|]. by right.
Qed.

(** The reader gives back the records of a plain text. *)
Lemma reader_render (records : list (list string)) :
  Forall (Forall plain_cell) records →
  Forall (λ row, row ≠ [EmptyString]) records →
  Csv.reader (render_row <$> records) = inr records.
Proof.
  unfold Csv.reader.
  induction 1 as [|row records Hrow Hrecords IH]; intros Hne; [done|].
  apply Forall_cons in Hne as [Hne1 Hne].
  rewrite fmap_cons. cbn [Csv.records_from].
  rewrite feed_render_row by done. cbn [Csv.state].
  rewrite decide_True by done. rewrite IH by done. done.
Qed.


Lemma rows_of_bytes_plain (bytes : string) (header : list string)
    (records : list (list string)) :
  Utf8.decode_sig bytes = Some (render (header :: records)) →
  Forall (Forall plain_cell) (header :: records) →
  Forall (λ row, row ≠ [EmptyString]) (header :: records) →
  rows_of_bytes bytes
  = inr (Csv.dict_row header <$> filter (λ row, row ≠ []) records).
Proof.
  intros Hdecode Hplain Hne. unfold rows_of_bytes. rewrite Hdecode.
  rewrite lines_of_render by done. rewrite reader_render by done. done.
Qed.




(** * Further properties *)

(** ** The SMTP session *)

(** A run of calls on a session stops at the first call that raises. *)
Lemma for_each_smtp_call (w : World) (calls : list SmtpCall) (t : Trace) :
  (for_each calls (smtp_call w) t = (inr tt, t ++ (Smtp <$> calls))
   ∧ ∀ i c, calls !! i = Some c → smtp w (length t + i) c = None)
  ∨ ∃ done c text,
      for_each calls (smtp_call w) t
      = (inl (SMTPException text), t ++ (Smtp <$> (done ++ [c])))
      ∧ (done ++ [c]) `prefix_of` calls
      ∧ smtp w (length t + length done) c = Some text
      ∧ ∀ i c', done !! i = Some c' → smtp w (length t + i) c' = None.
Proof.
  revert t. induction calls as [|c calls IH]; intros t.
  - left. simpl. split; [by rewrite app_nil_r|]. intros i c Hc. done.
  - cbn [for_each]. unfold bind.
    assert (Hcall : smtp_call w c t
                    = match smtp w (length t) c with
                      | None => (inr tt, t ++ [Smtp c])
                      | Some text => (inl (SMTPException text), t ++ [Smtp c])
                      end) by reflexivity.
    rewrite Hcall. clear Hcall.
    destruct (smtp w (length t) c) as [text|] eqn:Hc.
    + right. exists [], c, text. simpl. rewrite Nat.add_0_r.
      split; [done|]. split; [by apply prefix_cons, prefix_nil|].
      split; [done|]. intros i c' Hc'. done.
    + destruct (IH (t ++ [Smtp c])) as [[Hrun Hok]|
        (done & c1 & text & Hrun & Hprefix & Hfail & Hok)].
      * left. rewrite Hrun, <- app_assoc. split; [done|].
        intros [|i] c' Hc'; simpl in Hc'.
        -- injection Hc' as <-. by rewrite Nat.add_0_r.
        -- specialize (Hok i c' Hc'). rewrite length_app in Hok. simpl in Hok.
           by replace (length t + S i) with (length t + 1 + i) by lia.
      * right. exists (c :: done), c1, text.
        rewrite Hrun, <- app_assoc. split; [done|].
        split; [by apply prefix_cons|]. split.
        -- rewrite length_app in Hfail. simpl in *.
           by replace (length t + S (length done))
             with (length t + 1 + length done) by lia.
        -- intros [|i] c' Hc'; simpl in Hc'.
           ++ injection Hc' as <-. by rewrite Nat.add_0_r.
           ++ specialize (Hok i c' Hc'). rewrite length_app in Hok.
              simpl in Hok.
              by replace (length t + S i) with (length t + 1 + i) by lia.
Qed.

(** The block under [try] is the run of the planned calls. *)
Lemma try_send_via_smtp_plan (w : World) (host : string) (msg : EmailMessage)
    (t : Trace) :
  SMTP_HOST w = Some host → host ≠ EmptyString →
  try_send_via_smtp w msg t
  = try_except
      (for_each (session_plan w host msg) (smtp_call w);; ret (true, "sent"))
      (λ e, ret (false, exn_str e)) t.
Proof.
  intros Hhost Hne. unfold try_send_via_smtp, session_plan. rewrite Hhost.
  destruct host as [|a host]; [done|].
  unfold try_except, smtp_login_if_configured.
  destruct (USE_TLS w), (SMTP_USER w) as [[|? ?]|], (SMTP_PASS w) as [[|? ?]|];
    cbn [app for_each]; unfold bind, ret;
    repeat (match goal with
            | |- context [smtp_call w ?c ?t'] =>
                destruct (smtp_call w c t') as [[?|[]] ?]
            end; try done).
Qed.




Lemma lookup_trace_calls (t : Trace) (calls : list SmtpCall) (i : nat)
    (c : SmtpCall) :
  (t ++ (Smtp <$> calls)) !! (length t + i) = Some (Smtp c) →
  calls !! i = Some c.
Proof.
  rewrite lookup_app_r by lia.
  replace (length t + i - length t) with i by lia.
  rewrite list_lookup_fmap. destruct (calls !! i); simpl; congruence.
Qed.

(** X2. When [USE_TLS] is set, a login is the third call of its session, it
    uses the configured user and password, and it is made only after the
    upgrade to TLS, the second call, has gone through. *)
Theorem login_only_after_starttls (w : World) (msg : EmailMessage)
    (t t' : Trace) (r : Exn + bool * string) (i : nat) (u p : string) :
  USE_TLS w = true →
  try_send_via_smtp w msg t = (r, t') →
  t' !! (length t + i) = Some (Smtp (SmtpLogin u p)) →
  i = 2
  ∧ SMTP_USER w = Some u ∧ SMTP_PASS w = Some p
  ∧ t' !! (length t + 1) = Some (Smtp SmtpStartTls)
  ∧ smtp w (length t + 1) SmtpStartTls = None.
Proof.
  intros Htls Hrun Hlogin. unfold Trace in *.
  destruct (SMTP_HOST w) as [[|a host]|] eqn:Hhost.
  { rewrite try_send_via_smtp_no_host in Hrun by (by right).
    injection Hrun as <- <-.
    apply lookup_lt_Some in Hlogin. lia. }
  2:{ rewrite try_send_via_smtp_no_host in Hrun by (by left).
      injection Hrun as <- <-.
      apply lookup_lt_Some in Hlogin. lia. }
  rewrite (try_send_via_smtp_plan w (String a host) msg t Hhost) in Hrun
    by done.
  unfold try_except, bind in Hrun.
  remember (session_plan w (String a host) msg) as plan eqn:Hplan.
  assert (Hplan1 : plan !! 1 = Some SmtpStartTls).
  { rewrite Hplan. unfold session_plan. by rewrite Htls. }
  assert (Hplani : ∀ j, plan !! j = Some (SmtpLogin u p) →
                        j = 2 ∧ SMTP_USER w = Some u ∧ SMTP_PASS w = Some p).
  { rewrite Hplan. unfold session_plan. rewrite Htls. intros j Hj.
    destruct (SMTP_USER w) as [[|? ?]|], (SMTP_PASS w) as [[|? ?]|];
      destruct j as [|[|[|[|j]]]]; simpl in Hj; try discriminate;
      by injection Hj as <- <-. }
  destruct (for_each_smtp_call w plan t)
    as [[Hcalls Hok]|(done & c & text & Hcalls & Hprefix & Hfail & Hok)];
    rewrite Hcalls in Hrun; simpl in Hrun; injection Hrun as <- <-.
  - apply lookup_trace_calls in Hlogin.
    destruct (Hplani i Hlogin) as (-> & Hu & Hp).
    split; [done|]. split; [done|]. split; [done|]. split.
    + rewrite lookup_app_r by lia.
      replace (length t + 1 - length t) with 1 by lia.
      by rewrite list_lookup_fmap, Hplan1.
    + by apply Hok.
  - apply lookup_trace_calls in Hlogin.
    assert (Hi := prefix_lookup_Some _ _ _ _ Hlogin Hprefix).
    destruct (Hplani i Hi) as (-> & Hu & Hp).
    assert (Hlen : 2 ≤ length done).
    { apply lookup_lt_Some in Hlogin. rewrite length_app in Hlogin.
      simpl in Hlogin. lia. }
    destruct (lookup_lt_is_Some_2 done 1) as [c1 Hc1]; [lia|].
    assert (Hc1' : (done ++ [c]) !! 1 = Some c1)
      by (by apply lookup_app_l_Some).
    assert (Hp1 := prefix_lookup_Some _ _ _ _ Hc1' Hprefix).
    rewrite Hplan1 in Hp1. injection Hp1 as <-.
    split; [done|]. split; [done|]. split; [done|]. split.
    + rewrite lookup_app_r by lia.
      replace (length t + 1 - length t) with 1 by lia.
      by rewrite list_lookup_fmap, Hc1'.
    + by apply Hok.
Qed.

Lemma login_only_after_starttls_witness :
  let w := with_smtp example_world (Some "smtp.bank.local") (Some "svc")
             (Some "secret") true (λ _ _, None) in
  let msg := build_message w "bob@x.com" EMAIL_SUBJECT EMAIL_BODY None in
  USE_TLS w = true
  ∧ (try_send_via_smtp w msg []).2 !! 2 = Some (Smtp (SmtpLogin "svc" "secret"))
  ∧ smtp w 1 SmtpStartTls = None.
Proof.
  intros w msg.
  assert (H1 : USE_TLS w = true) by reflexivity.
  assert (H3 : (try_send_via_smtp w msg []).2 !! (length ([] : Trace) + 2)
               = Some (Smtp (SmtpLogin "svc" "secret")))
    by (vm_compute; reflexivity).
  split; [exact H1|]. split; [exact H3|].
  apply (login_only_after_starttls w msg [] (try_send_via_smtp w msg []).2
           (try_send_via_smtp w msg []).1 2 "svc" "secret" H1);
    [by destruct (try_send_via_smtp w msg [])|exact H3].
Defined.

(** ** One delivery, and the loops of [main] *)












(** ** More on the grouper *)

Lemma setdefault_append_keys (G : Groups) (email : string) (it : Item) :
  (setdefault_append G email it).*1
  = if decide (email ∈ G.*1) then G.*1 else G.*1 ++ [email].
Proof.
  induction G as [|[e items] G IH]; [done|]. cbn [setdefault_append].
  destruct (decide (e = email)) as [->|Hne].
  - rewrite decide_True; [done|]. rewrite fmap_cons. apply list_elem_of_here.
  - rewrite !fmap_cons, IH. cbn [fst].
    destruct (decide (email ∈ G.*1)) as [Hin|Hnin].
    + rewrite decide_True; [done|]. by apply list_elem_of_further.
    + rewrite decide_False; [done|].
      intros [?|?]%elem_of_cons; congruence.
Qed.

Lemma setdefault_append_NoDup (G : Groups) (email : string) (it : Item) :
  NoDup G.*1 → NoDup (setdefault_append G email it).*1.
Proof.
  intros Hnd. rewrite setdefault_append_keys.
  destruct (decide (email ∈ G.*1)); [done|].
  apply NoDup_app. split; [done|]. split; [|apply NoDup_singleton].
  intros x Hx ->%list_elem_of_singleton. done.
Qed.

Lemma groups_from_NoDup (new_keys : gset string) (rows : list Row)
    (G : Groups) :
  NoDup G.*1 → NoDup (groups_from new_keys G rows).*1.
Proof.
  revert G. induction rows as [|r rows IH]; intros G HG; [done|].
  change (r :: rows) with ([r] ++ rows). rewrite groups_from_app.
  apply IH. unfold groups_from. simpl.
  destruct (decide (filed new_keys r)); [|done].
  by apply setdefault_append_NoDup.
Qed.

Lemma group_items_setdefault_append (G : Groups) (email e : string)
    (it : Item) :
  group_items (setdefault_append G email it) e
  = if decide (email = e) then group_items G e ++ [it] else group_items G e.
Proof.
  induction G as [|[e' items] G IH]; simpl.
  - by destruct (decide (email = e)).
  - destruct (decide (e' = email)) as [->|Hne]; simpl.
    + by destruct (decide (email = e)).
    + destruct (decide (e' = e)) as [->|Hne'].
      * by rewrite decide_False by done.
      * exact IH.
Qed.

Lemma group_items_groups_from (new_keys : gset string) (rows : list Row)
    (G : Groups) (email : string) :
  group_items (groups_from new_keys G rows) email
  = group_items G email
    ++ (item_of <$> filter (λ r, filed new_keys r ∧ contact_of r = email) rows).
Proof.
  revert G. induction rows as [|r rows IH]; intros G.
  - simpl. by rewrite app_nil_r.
  - change (r :: rows) with ([r] ++ rows).
    rewrite groups_from_app, IH. unfold groups_from at 1. simpl.
    rewrite filter_cons. destruct (decide (filed new_keys r)) as [Hf|Hf].
    + rewrite group_items_setdefault_append.
      destruct (decide (contact_of r = email)) as [He|He].
      * rewrite decide_True by done. by rewrite fmap_cons, <- app_assoc.
      * rewrite decide_False by tauto. done.
    + rewrite decide_False by tauto. done.
Qed.

Lemma group_items_elem_of (G : Groups) (email : string) (items : list Item) :
  NoDup G.*1 → (email, items) ∈ G → group_items G email = items.
Proof.
  induction G as [|[e items'] G IH]; intros Hnd Hin; [by inversion Hin|].
  rewrite fmap_cons in Hnd. apply NoDup_cons in Hnd as [Hfresh Hnd].
  apply elem_of_cons in Hin as [Heq|Hin]; simpl.
  - injection Heq as <- <-. by rewrite decide_True.
  - destruct (decide (e = email)) as [->|Hne]; [|by apply IH].
    exfalso. apply Hfresh. simpl.
    apply (list_elem_of_fmap_2 fst _ (email, items)). done.
Qed.

(** X6. Every address is a key of the groups once, no address is empty and
    none is without an item; the items filed under an address are those of
    the rows that have a new key and resolve to that address, in the order
    of the rows in the snapshot. *)
Theorem group_new_by_reporter_groups (rows : list Row)
    (new_keys : gset string) (t : Trace) :
  ∃ by_reporter t',
    group_new_by_reporter rows new_keys t = (inr by_reporter, t')
    ∧ NoDup by_reporter.*1
    ∧ ∀ email items,
        (email, items) ∈ by_reporter →
        email ≠ EmptyString ∧ items ≠ []
        ∧ items
          = item_of
            <$> filter (λ r, filed new_keys r ∧ contact_of r = email) rows.
Proof.
  eexists _, _. split; [apply group_new_by_reporter_run|].
  assert (Hnd : NoDup (groups_from new_keys [] rows).*1)
    by apply groups_from_NoDup, NoDup_nil_2.
  split; [exact Hnd|]. intros email items Hin.
  assert (Hitems := group_items_groups_from new_keys rows [] email).
  rewrite (group_items_elem_of _ _ _ Hnd Hin) in Hitems. simpl in Hitems.
  assert (Hne : items ≠ []).
  { assert (Hall := groups_from_nonempty new_keys rows [] (Forall_nil_2 _)).
    rewrite Forall_forall in Hall. apply (Hall _ Hin). }
  split; [|done].
  destruct items as [|it items]; [done|].
  assert (Hit : it ∈ item_of
                     <$> filter (λ r, filed new_keys r ∧ contact_of r = email)
                           rows)
    by (rewrite <- Hitems; apply list_elem_of_here).
  apply list_elem_of_fmap in Hit as (r & _ & Hr).
  apply list_elem_of_filter in Hr as [[[_ Hc] <-] _]. done.
Qed.

Lemma group_new_by_reporter_groups_witness :
  let r1 := mkRow {[ COL_ISSUE_KEY := Some "A-1"; COL_SUMMARY := Some "one";
                     COL_REPORTER_EMAIL := Some "bob@x.com" ]} [] in
  let r2 := mkRow {[ COL_ISSUE_KEY := Some "A-2"; COL_SUMMARY := Some "two";
                     COL_REPORTER := Some "eve" ]} [] in
  let r3 := mkRow {[ COL_ISSUE_KEY := Some "A-3"; COL_SUMMARY := Some "three";
                     COL_REPORTER_EMAIL := Some " bob@x.com " ]} [] in
  let new_keys : gset string := {[ "A-1"; "A-2"; "A-3" ]} in
  ∃ by_reporter t',
    group_new_by_reporter [r1; r2; r3] new_keys [] = (inr by_reporter, t')
    ∧ NoDup by_reporter.*1
    ∧ (("bob@x.com", [item_of r1; item_of r3]) ∈ by_reporter →
       [item_of r1; item_of r3]
       = item_of
         <$> filter (λ r, filed new_keys r ∧ contact_of r = "bob@x.com")
               [r1; r2; r3]).
Proof.
  intros r1 r2 r3 new_keys.
  destruct (group_new_by_reporter_groups [r1; r2; r3] new_keys [])
    as (by_reporter & t' & Hrun & Hnd & Hitems).
  exists by_reporter, t'. split; [exact Hrun|]. split; [exact Hnd|].
  intros Hin. by destruct (Hitems _ _ Hin) as (_ & _ & ?).
Defined.

Lemma groups_from_filter (new_keys : gset string) (rows : list Row)
    (G : Groups) :
  groups_from new_keys G (filter (λ r, row_key r ∈ new_keys) rows)
  = groups_from new_keys G rows.
Proof.
  revert G. induction rows as [|r rows IH]; intros G; [done|].
  rewrite filter_cons. destruct (decide (row_key r ∈ new_keys)) as [Hin|Hin].
  - change (r :: ?l) with ([r] ++ l). by rewrite !groups_from_app, IH.
  - rewrite IH. change (r :: rows) with ([r] ++ rows).
    rewrite groups_from_app. f_equal. unfold groups_from. simpl.
    rewrite decide_False; [done|]. unfold filed. tauto.
Qed.

Lemma skip_log_filter (new_keys : gset string) (rows : list Row) :
  filter (λ r, row_key r ∈ new_keys) rows ≫= skip_log new_keys
  = rows ≫= skip_log new_keys.
Proof.
  induction rows as [|r rows IH]; [done|].
  rewrite filter_cons. destruct (decide (row_key r ∈ new_keys)) as [Hin|Hin].
  - change (r :: ?l) with ([r] ++ l). by rewrite !bind_app, IH.
  - rewrite IH. change (r :: rows) with ([r] ++ rows). rewrite bind_app.
    simpl. unfold skip_log at 2. rewrite decide_False; [done|]. tauto.
Qed.

(** X7. The grouper looks at the rows with a new key only: the other rows
    change neither the groups nor the log; and with no new key at all it
    returns no group and logs nothing. *)
Theorem group_ignores_other_rows (rows : list Row) (new_keys : gset string)
    (t : Trace) :
  group_new_by_reporter rows new_keys t
  = group_new_by_reporter (filter (λ r, row_key r ∈ new_keys) rows) new_keys t
  ∧ group_new_by_reporter rows ∅ t = (inr [], t).
Proof.
  rewrite !group_new_by_reporter_run. split.
  - by rewrite groups_from_filter, skip_log_filter.
  - assert (Hgroups : ∀ G, groups_from ∅ G rows = G).
    { induction rows as [|r rows IH]; intros G; [done|].
      change (r :: rows) with ([r] ++ rows). rewrite groups_from_app, IH.
      unfold groups_from. simpl. rewrite decide_False; [done|].
      intros [Hin _]. by apply not_elem_of_empty in Hin. }
    assert (Hlog : rows ≫= skip_log ∅ = []).
    { clear Hgroups. induction rows as [|r rows IH]; [done|].
      change (r :: rows) with ([r] ++ rows). rewrite bind_app, IH.
      simpl. unfold skip_log. rewrite decide_False; [done|].
      intros [Hin _]. by apply not_elem_of_empty in Hin. }
    by rewrite Hgroups, Hlog, app_nil_r.
Qed.

Lemma issue_key_of_row_key (row : Row) (k : string) :
  issue_key_of row = Some k → row_key row = k.
Proof.
  unfold issue_key_of, row_key, get_or_empty.
  destruct (get row COL_ISSUE_KEY) as [s|]; [|done].
  destruct (Str.nonempty s); congruence.
Qed.

(** X8. No new key is lost between the detection and the grouping: for
    every key that is new in the later snapshot, the grouper files at least
    one item with that key or logs that it skips the key. *)
Theorem new_key_filed_or_skipped (prev_rows today_rows : list Row)
    (k : string) (t : Trace) :
  k ∈ new_keys_of prev_rows today_rows →
  ∃ by_reporter log,
    group_new_by_reporter today_rows (new_keys_of prev_rows today_rows) t
    = (inr by_reporter, t ++ log)
    ∧ ((∃ email it, (email, it) ∈ entries by_reporter ∧ item_key it = k)
       ∨ Logged WARNING ("Skipping " +:+ k +:+ ": no reporter email.") ∈ log).
Proof.
  intros Hk. eexists _, _. split; [apply group_new_by_reporter_run|].
  assert (Hk' := Hk). unfold new_keys_of in Hk'.
  apply elem_of_difference in Hk' as [Htoday _].
  apply elem_of_extract_issue_keys in Htoday as (row & Hrow & Hkey).
  apply issue_key_of_row_key in Hkey.
  set (new_keys := new_keys_of prev_rows today_rows) in *.
  destruct (decide (contact_of row = EmptyString)) as [Hc|Hc].
  - right. apply list_elem_of_bind. exists row. split; [|done].
    unfold skip_log. rewrite decide_True by (by rewrite Hkey).
    rewrite Hkey. apply list_elem_of_here.
  - left. exists (contact_of row), (item_of row). split; [|done].
    rewrite entries_groups_from. simpl.
    apply (list_elem_of_fmap_2 (λ r, (contact_of r, item_of r))).
    apply list_elem_of_filter. split; [|done]. split; [by rewrite Hkey|done].
Qed.

Lemma new_key_filed_or_skipped_witness :
  let old := mkRow {[ COL_ISSUE_KEY := Some "A-1" ]} [] in
  let r := mkRow {[ COL_ISSUE_KEY := Some " A-2 ";
                    COL_REPORTER := Some "bob" ]} [] in
  "A-2" ∈ new_keys_of [old] [old; r]
  ∧ ∃ by_reporter log,
      group_new_by_reporter [old; r] (new_keys_of [old] [old; r]) []
      = (inr by_reporter, [] ++ log)
      ∧ ((∃ email it, (email, it) ∈ entries by_reporter ∧ item_key it = "A-2")
         ∨ Logged WARNING "Skipping A-2: no reporter email." ∈ log).
Proof.
  intros old r.
  assert (Hk : "A-2" ∈ new_keys_of [old] [old; r]) by (vm_compute; reflexivity).
  split; [exact Hk|].
  exact (new_key_filed_or_skipped [old] [old; r] "A-2" [] Hk).
Defined.



(** ** Stripped strings *)

Lemma string_rev_app_eq (s1 s2 : string) :
  String.rev_app s1 s2 = String.rev s1 +:+ s2.
Proof.
  unfold String.rev. revert s2.
  induction s1 as [|a s1 IH]; intros s2; [done|].
  cbn [String.rev_app]. rewrite (IH (String a s2)), (IH (String a EmptyString)).
  by rewrite string_app_assoc.
Qed.

Lemma string_rev_cons (a : ascii) (s : string) :
  String.rev (String a s) = String.rev s +:+ String a EmptyString.
Proof. unfold String.rev at 1. cbn [String.rev_app]. apply string_rev_app_eq. Qed.

Lemma string_rev_app (s1 s2 : string) :
  String.rev (s1 +:+ s2) = String.rev s2 +:+ String.rev s1.
Proof.
  induction s1 as [|a s1 IH].
  - by rewrite string_app_nil_l, string_app_nil_r.
  - by rewrite string_app_cons, !string_rev_cons, IH, string_app_assoc.
Qed.

Lemma string_rev_involutive (s : string) : String.rev (String.rev s) = s.
Proof.
  induction s as [|a s IH]; [done|].
  by rewrite string_rev_cons, string_rev_app, IH.
Qed.

Section strip_front_facts.
Context (sp2 : ascii → ascii → bool) (sp3 : ascii → ascii → ascii → bool).

(** One step of the scan: either the string does not start with white space
    and is returned, or a character is dropped and the scan goes on. *)
Lemma strip_front_cases (s : string) :
  (starts_with_space sp2 sp3 s = false ∧ Str.strip_front sp2 sp3 s = s)
  ∨ (starts_with_space sp2 sp3 s = true
     ∧ ∃ p s',
         s = p +:+ s' ∧ String.length s' < String.length s
         ∧ Str.strip_front sp2 sp3 s = Str.strip_front sp2 sp3 s').
Proof.
  destruct s as [|a s1]; [by left|].
  cbn [Str.strip_front starts_with_space].
  destruct (Str.is_space1 a).
  { right. split; [done|]. exists (String a EmptyString), s1. simpl.
    split; [done|]. split; [lia|done]. }
  destruct s1 as [|b s2]; [by left|].
  destruct (sp2 a b).
  { right. split; [done|]. exists (String a (String b EmptyString)), s2.
    simpl. split; [done|]. split; [lia|done]. }
  destruct s2 as [|c s3]; [by left|].
  destruct (sp3 a b c).
  { right. split; [done|].
    exists (String a (String b (String c EmptyString))), s3. simpl.
    split; [done|]. split; [lia|done]. }
  by left.
Qed.

(** The result does not start with white space, stripping it again changes
    nothing, and it is what is left of the string after a prefix. *)
Lemma strip_front_spec (s : string) :
  starts_with_space sp2 sp3 (Str.strip_front sp2 sp3 s) = false
  ∧ Str.strip_front sp2 sp3 (Str.strip_front sp2 sp3 s)
    = Str.strip_front sp2 sp3 s
  ∧ ∃ p, s = p +:+ Str.strip_front sp2 sp3 s.
Proof.
  remember (String.length s) as n eqn:Hn. revert s Hn.
  induction n as [n IH] using lt_wf_ind. intros s ->.
  destruct (strip_front_cases s)
    as [[Hstart Hfix]|(_ & p & s' & Hs & Hlen & Hstep)].
  - rewrite !Hfix. split; [done|]. split; [done|]. by exists EmptyString.
  - destruct (IH _ Hlen s' eq_refl) as (Hstart & Hidem & p' & Hp').
    rewrite Hstep. split; [done|]. split; [done|].
    exists (p +:+ p'). by rewrite string_app_assoc, <- Hp'.
Qed.

Lemma strip_front_fixed (s : string) :
  starts_with_space sp2 sp3 s = false → Str.strip_front sp2 sp3 s = s.
Proof.
  intros Hstart.
  destruct (strip_front_cases s) as [[_ Hfix]|(Hstart' & _)]; congruence.
Qed.

(** A string that starts with white space still does when it is extended. *)
Lemma starts_with_space_app (s1 s2 : string) :
  starts_with_space sp2 sp3 s1 = true →
  starts_with_space sp2 sp3 (s1 +:+ s2) = true.
Proof.
  destruct s1 as [|a [|b [|c s1]]]; [done|..];
    rewrite ?string_app_cons, ?string_app_nil_l;
    cbn [starts_with_space]; destruct (Str.is_space1 a); try done;
    destruct (sp2 a b); try done; rewrite ?orb_false_r; try done.
  all: destruct s2 as [|? [|? ?]]; done.
Qed.
End strip_front_facts.

Lemma rstrip_prefix (s : string) : ∃ q, s = Str.rstrip s +:+ q.
Proof.
  unfold Str.rstrip.
  destruct (strip_front_spec (λ a b, Str.is_space2 b a)
              (λ a b c, Str.is_space3 c b a) (String.rev s))
    as (_ & _ & p & Hp).
  exists (String.rev p).
  rewrite <- string_rev_app, <- Hp. by rewrite string_rev_involutive.
Qed.

Lemma rstrip_idempotent (s : string) :
  Str.rstrip (Str.rstrip s) = Str.rstrip s.
Proof.
  unfold Str.rstrip. rewrite string_rev_involutive.
  by destruct (strip_front_spec (λ a b, Str.is_space2 b a)
                 (λ a b c, Str.is_space3 c b a) (String.rev s))
    as (_ & -> & _).
Qed.

(** Stripping a stripped string changes nothing. *)
Lemma strip_idempotent (s : string) : Str.strip (Str.strip s) = Str.strip s.
Proof.
  unfold Str.strip.
  assert (Hfront : Str.lstrip (Str.rstrip (Str.lstrip s))
                   = Str.rstrip (Str.lstrip s)).
  { unfold Str.lstrip at 1. apply strip_front_fixed.
    destruct (starts_with_space Str.is_space2 Str.is_space3
                (Str.rstrip (Str.lstrip s))) eqn:Hstart; [|done].
    destruct (rstrip_prefix (Str.lstrip s)) as (q & Hq).
    apply (starts_with_space_app _ _ _ q) in Hstart. rewrite <- Hq in Hstart.
    destruct (strip_front_spec Str.is_space2 Str.is_space3 s) as (Hno & _).
    unfold Str.lstrip in Hstart. congruence. }
  rewrite Hfront. apply rstrip_idempotent.
Qed.

(** X10. Every key of the set of issue keys is a stripped string: stripping
    it again gives the same key, so no key of the set differs from another
    by white space at its ends only.  The same holds for the key and the
    address the grouper reads from a row. *)
Theorem extracted_keys_are_stripped (rows : list Row) (k : string) :
  k ∈ extract_issue_keys rows →
  Str.strip k = k
  ∧ ∀ r, Str.strip (row_key r) = row_key r
         ∧ Str.strip (contact_of r) = contact_of r.
Proof.
  intros Hk. split.
  - apply elem_of_extract_issue_keys in Hk as (row & _ & Hkey).
    unfold issue_key_of in Hkey.
    destruct (get row COL_ISSUE_KEY) as [s|]; [|done].
    destruct (Str.nonempty s); [|done].
    injection Hkey as <-. apply strip_idempotent.
  - intros r. split; [apply strip_idempotent|].
    unfold contact_of. destruct (Str.nonempty _); apply strip_idempotent.
Qed.

Lemma extracted_keys_are_stripped_witness :
  let rows := [mkRow {[ COL_ISSUE_KEY := Some "  A-7 " ]} []] in
  "A-7" ∈ extract_issue_keys rows ∧ Str.strip "A-7" = "A-7".
Proof.
  intros rows.
  assert (Hk : "A-7" ∈ extract_issue_keys rows) by (vm_compute; reflexivity).
  split; [exact Hk|].
  apply (extracted_keys_are_stripped rows "A-7" Hk).
Defined.

(** ** Keys of snapshots put together *)

Lemma size_list_to_set_le (l : list string) :
  size (list_to_set l : gset string) ≤ length l.
Proof.
  induction l as [|x l IH]; [by rewrite list_to_set_nil, size_empty|].
  rewrite list_to_set_cons, size_union_alt, size_singleton. simpl.
  assert (size (list_to_set l ∖ {[x]} : gset string)
          ≤ size (list_to_set l : gset string))
    by apply subseteq_size, subseteq_difference_l, reflexivity.
  lia.
Qed.

Lemma length_omap_le {A B} (f : A → option B) (l : list A) :
  length (omap f l) ≤ length l.
Proof.
  induction l as [|x l IH]; [done|]. cbn [omap list_omap].
  destruct (f x); cbn [length]; lia.
Qed.

(** X11. The keys of two lists of rows put together are the keys of the one
    and of the other.  So the new keys of a later snapshot in two parts are
    the new keys of the parts; against an earlier snapshot in two parts, a
    key is new when it is new against both; a new key is never a key of the
    earlier snapshot; and there are no more new keys than rows in the later
    snapshot. *)
Theorem new_keys_compose (prev prev' today today' : list Row) :
  extract_issue_keys (today ++ today')
  = extract_issue_keys today ∪ extract_issue_keys today'
  ∧ new_keys_of prev (today ++ today')
    = new_keys_of prev today ∪ new_keys_of prev today'
  ∧ new_keys_of (prev ++ prev') today
    = new_keys_of prev today ∩ new_keys_of prev' today
  ∧ new_keys_of prev today ## extract_issue_keys prev
  ∧ size (new_keys_of prev today) ≤ length today.
Proof.
  assert (Happ : ∀ l l', extract_issue_keys (l ++ l')
                         = extract_issue_keys l ∪ extract_issue_keys l').
  { intros l l'. unfold extract_issue_keys.
    by rewrite omap_app, list_to_set_app_L. }
  unfold new_keys_of. rewrite !Happ.
  split; [done|]. split; [apply difference_union_distr_l_L|].
  split; [apply difference_union_distr_r_L|].
  split; [by apply disjoint_difference_l1|].
  etrans; [apply subseteq_size, subseteq_difference_l; reflexivity|].
  unfold extract_issue_keys.
  etrans; [apply size_list_to_set_le|]. apply length_omap_le.
Qed.

(** ** More on the selector *)

Lemma glob_csv_with_exports (w : World) (names : list string)
    (contents : string → FileResult) :
  glob_csv (with_exports w names contents) (EXPORT_DIR w)
  = mkPath (EXPORT_DIR w) <$> filter (λ n, matches_csv w n = true) names.
Proof.
  unfold glob_csv. cbn [listdir with_exports]. by rewrite decide_True.
Qed.

(** X12. The order in which the system lists the folder does not matter:
    for two listings of the same distinct names the selector returns the
    same result, whatever the files hold. *)
Theorem pick_latest_two_csvs_listing_order (w : World)
    (names names' : list string) (contents contents' : string → FileResult) :
  names ≡ₚ names' → NoDup names →
  pick_latest_two_csvs (with_exports w names contents) (EXPORT_DIR w)
  = pick_latest_two_csvs (with_exports w names' contents') (EXPORT_DIR w).
Proof.
  intros Hperm Hnd. unfold pick_latest_two_csvs.
  rewrite !glob_csv_with_exports.
  assert (Hsorted :
    sorted name (mkPath (EXPORT_DIR w)
                 <$> filter (λ n, matches_csv w n = true) names)
    = sorted name (mkPath (EXPORT_DIR w)
                   <$> filter (λ n, matches_csv w n = true) names')).
  { apply sorted_Permutation_NoDup.
    - by rewrite Hperm.
    - rewrite <- list_fmap_compose, list_fmap_id. by apply NoDup_filter. }
  by rewrite Hsorted.
Qed.

Lemma pick_latest_two_csvs_listing_order_witness :
  let names := ["b.csv"; "notes.txt"; "a.csv"; "c.csv"] in
  let names' := ["notes.txt"; "b.csv"; "a.csv"; "c.csv"] in
  (names ≡ₚ names' ∧ NoDup names)
  ∧ pick_latest_two_csvs
      (with_exports example_world names (λ _, CannotOpen "-")) "exports"
    = pick_latest_two_csvs
        (with_exports example_world names' (λ _, Contents EmptyString))
        "exports".
Proof.
  intros names names'.
  assert (H1 : names ≡ₚ names') by apply perm_swap.
  assert (H2 : NoDup names).
  { apply (bool_decide_unpack _). vm_compute. exact I. }
  split; [done|].
  exact (pick_latest_two_csvs_listing_order example_world names names'
           (λ _, CannotOpen "-") (λ _, Contents EmptyString) H1 H2).
Defined.

(** X13. In a folder, whose names are distinct, the two paths the selector
    returns are two different files of the listing that match the pattern,
    and the name of the first is strictly before the name of the second. *)
Theorem pick_latest_two_csvs_distinct (w : World) (folder : string)
    (older newer : Path) :
  NoDup (listdir w folder) →
  pick_latest_two_csvs w folder = inr (older, newer) →
  name older ∈ listdir w folder ∧ name newer ∈ listdir w folder
  ∧ matches_csv w (name older) = true ∧ matches_csv w (name newer) = true
  ∧ name older ≠ name newer
  ∧ String.le (name older) (name newer).
Proof.
  intros Hnd Hpick. unfold pick_latest_two_csvs in Hpick.
  assert (Hperm := sorted_Permutation name (glob_csv w folder)).
  assert (Hsorted := Sorted_sorted name (glob_csv w folder)).
  remember (sorted name (glob_csv w folder)) as files eqn:Hfiles.
  destruct (decide (length files < 2)) as [|Hlen]; [done|].
  destruct (files !! (length files - 2)) as [p|] eqn:Hp; [|done].
  destruct (files !! (length files - 1)) as [q|] eqn:Hq; [|done].
  injection Hpick as -> ->.
  assert (Hin : ∀ p, p ∈ files →
                     name p ∈ listdir w folder ∧ matches_csv w (name p) = true).
  { intros p Hp'. rewrite Hperm in Hp'. unfold glob_csv in Hp'.
    apply list_elem_of_fmap in Hp' as (n & -> & Hn).
    apply list_elem_of_filter in Hn as [Hm Hn]. done. }
  assert (Hnames : NoDup (name <$> files)).
  { rewrite Hperm, matches_glob_csv. by apply NoDup_filter. }
  destruct (Hin older) as [? ?]; [by eapply list_elem_of_lookup_2|].
  destruct (Hin newer) as [? ?]; [by eapply list_elem_of_lookup_2|].
  repeat (split; [done|]). split.
  - intros Heq.
    assert (Hi : length files - 2 = length files - 1).
    { apply (NoDup_lookup _ _ _ (name older) Hnames);
        rewrite list_lookup_fmap; [by rewrite Hp|by rewrite Hq, Heq]. }
    lia.
  - apply Sorted_StronglySorted in Hsorted; [|apply _].
    destruct (list_split_last_two files) as (init & a & b & Hsplit); [lia|].
    rewrite Hsplit in Hp, Hq, Hsorted. rewrite length_app in Hp, Hq.
    simpl in Hp, Hq.
    rewrite lookup_app_r in Hp by lia. rewrite lookup_app_r in Hq by lia.
    replace (length init + 2 - 2 - length init) with 0 in Hp by lia.
    replace (length init + 2 - 1 - length init) with 1 in Hq by lia.
    simpl in Hp, Hq. injection Hp as ->. injection Hq as ->.
    apply StronglySorted_app in Hsorted as (_ & _ & Htail).
    inversion Htail as [|? ? _ Hall]; subst. by inversion Hall.
Qed.

Lemma pick_latest_two_csvs_distinct_witness :
  let w := with_exports example_world
             ["2024-01-02.csv"; "2024-01-03.csv"; "2024-01-01.csv"]
             (λ _, CannotOpen "-") in
  (NoDup (listdir w "exports")
   ∧ pick_latest_two_csvs w "exports"
     = inr (mkPath "exports" "2024-01-02.csv",
            mkPath "exports" "2024-01-03.csv"))
  ∧ "2024-01-02.csv" ≠ "2024-01-03.csv".
Proof.
  intros w.
  assert (H1 : NoDup (listdir w "exports")).
  { apply (bool_decide_unpack _). vm_compute. exact I. }
  assert (H2 : pick_latest_two_csvs w "exports"
               = inr (mkPath "exports" "2024-01-02.csv",
                      mkPath "exports" "2024-01-03.csv"))
    by (vm_compute; reflexivity).
  split; [done|].
  apply (pick_latest_two_csvs_distinct w "exports" _ _ H1 H2).
Defined.

(** ** The cells of a row *)

Lemma foldl_insert_zip_ne (ks vs : list string)
    (d : gmap string (option string)) (k : string) :
  k ∉ ks →
  foldl (λ d kv, <[kv.1 := Some kv.2]> d) d (zip ks vs) !! k = d !! k.
Proof.
  revert vs d. induction ks as [|k0 ks IH]; intros vs d Hk; [done|].
  destruct vs as [|v0 vs]; [done|]. simpl.
  apply not_elem_of_cons in Hk as [Hne Hk].
  rewrite IH by done. by rewrite lookup_insert_ne.
Qed.

Lemma foldl_insert_zip_lookup (ks vs : list string)
    (d : gmap string (option string)) (i : nat) (k v : string) :
  NoDup ks → ks !! i = Some k → vs !! i = Some v →
  foldl (λ d kv, <[kv.1 := Some kv.2]> d) d (zip ks vs) !! k = Some (Some v).
Proof.
  revert vs d i. induction ks as [|k0 ks IH]; intros vs d i Hnd Hk Hv;
    [done|].
  destruct vs as [|v0 vs]; [done|].
  apply NoDup_cons in Hnd as [Hfresh Hnd]. simpl.
  destruct i as [|i]; simpl in Hk, Hv.
  - injection Hk as ->. injection Hv as ->.
    rewrite foldl_insert_zip_ne by done. by rewrite lookup_insert_eq.
  - by apply (IH vs _ i).
Qed.

(** A column beyond the end of a short row is not written by the cells. *)
Lemma foldl_insert_zip_short (ks vs : list string)
    (d : gmap string (option string)) (i : nat) (k : string) :
  NoDup ks → ks !! i = Some k → length vs ≤ i →
  foldl (λ d kv, <[kv.1 := Some kv.2]> d) d (zip ks vs) !! k = d !! k.
Proof.
  revert vs d i. induction ks as [|k0 ks IH]; intros vs d i Hnd Hk Hlen;
    [done|].
  destruct vs as [|v0 vs]; [done|].
  apply NoDup_cons in Hnd as [Hfresh Hnd]. simpl in *.
  destruct i as [|i]; [lia|]. simpl in Hk.
  rewrite (IH vs _ i) by (done || lia).
  rewrite lookup_insert_ne; [done|].
  intros ->. apply Hfresh. by eapply list_elem_of_lookup_2.
Qed.

Lemma foldl_insert_None_lookup (ks : list string)
    (d : gmap string (option string)) (k : string) :
  foldl (λ d k, <[k := None]> d) d ks !! k
  = if decide (k ∈ ks) then Some None else d !! k.
Proof.
  revert d. induction ks as [|k0 ks IH]; intros d; cbn [foldl].
  - destruct (decide (k ∈ [])) as [Hin|_]; [|done].
    by apply elem_of_nil in Hin.
  - rewrite IH. destruct (decide (k ∈ ks)) as [Hin|Hnin].
    + rewrite decide_True; [done|]. by apply list_elem_of_further.
    + destruct (decide (k = k0)) as [->|Hne].
      * rewrite decide_True by apply list_elem_of_here.
        by rewrite lookup_insert_eq.
      * rewrite decide_False by (intros [?|?]%elem_of_cons; done).
        by rewrite lookup_insert_ne.
Qed.

(** With distinct field names, the cell of a row under a field name is the
    cell at the position of the name, [None] past the end of the row. *)
Lemma dict_row_get (fieldnames row : list string) (i : nat) (k : string) :
  NoDup fieldnames → fieldnames !! i = Some k →
  get (Csv.dict_row fieldnames row) k = row !! i.
Proof.
  intros Hnd Hk. unfold get, Csv.dict_row.
  assert (Hi : i < length fieldnames) by (by eapply lookup_lt_Some).
  destruct (decide (length fieldnames < length row)) as [Hlong|Hnlong];
    [|destruct (decide (length row < length fieldnames)) as [Hshort|Hnshort]];
    cbn [cells].
  - destruct (lookup_lt_is_Some_2 row i) as [v Hv]; [lia|].
    rewrite (foldl_insert_zip_lookup _ _ _ i k v) by done. by rewrite Hv.
  - rewrite foldl_insert_None_lookup.
    destruct (decide (k ∈ drop (length row) fieldnames)) as [Hin|Hnin].
    + apply list_elem_of_lookup in Hin as [j Hj].
      rewrite lookup_drop in Hj.
      assert (length row + j = i) as <-
        by (by apply (NoDup_lookup fieldnames _ _ k)).
      simpl. symmetry. apply lookup_ge_None. lia.
    + destruct (decide (i < length row)) as [Hlt|Hge].
      * destruct (lookup_lt_is_Some_2 row i) as [v Hv]; [lia|].
        rewrite (foldl_insert_zip_lookup _ _ _ i k v) by done.
        by rewrite Hv.
      * exfalso. apply Hnin. apply list_elem_of_lookup.
        exists (i - length row). rewrite lookup_drop.
        by replace (length row + (i - length row)) with i by lia.
  - destruct (lookup_lt_is_Some_2 row i) as [v Hv]; [lia|].
    rewrite (foldl_insert_zip_lookup _ _ _ i k v) by done. by rewrite Hv.
Qed.

Lemma dict_row_get_absent (fieldnames row : list string) (k : string) :
  k ∉ fieldnames → get (Csv.dict_row fieldnames row) k = None.
Proof.
  intros Hk. unfold get, Csv.dict_row.
  destruct (decide (length fieldnames < length row));
    [|destruct (decide (length row < length fieldnames))]; cbn [cells];
    rewrite ?foldl_insert_None_lookup, ?decide_False,
      ?foldl_insert_zip_ne, ?lookup_empty; try done.
  intros Hin. by apply subseteq_drop in Hin.
Qed.

Lemma dict_row_rest (fieldnames row : list string) :
  rest (Csv.dict_row fieldnames row) = drop (length fieldnames) row.
Proof.
  unfold Csv.dict_row.
  destruct (decide (length fieldnames < length row));
    [done|destruct (decide (length row < length fieldnames))];
    cbn [rest]; symmetry; apply drop_ge; lia.
Qed.

(** X14. A file that holds a plain text of records under a header of
    distinct names loads as one row per record that is not blank, in order;
    in each row the cell under a name of the header is the cell of the
    record at the position of that name, [None] when the record is too
    short; a name that is not in the header has no cell; and the cells past
    the header are kept aside. *)
Theorem load_csv_cells (w : World) (path : Path) (bytes : string)
    (header : list string) (records : list (list string)) :
  files w path = Contents bytes →
  Utf8.decode_sig bytes = Some (render (header :: records)) →
  Forall (Forall plain_cell) (header :: records) →
  Forall (λ row, row ≠ [EmptyString]) (header :: records) →
  NoDup header →
  ∃ rows,
    load_csv w path = inr rows
    ∧ length rows = length (filter (λ row, row ≠ []) records)
    ∧ ∀ j r row,
        rows !! j = Some r →
        filter (λ row, row ≠ []) records !! j = Some row →
        (∀ i k, header !! i = Some k → get r k = row !! i)
        ∧ (∀ k, k ∉ header → get r k = None)
        ∧ rest r = drop (length header) row.
Proof.
  intros Hfile Hdecode Hplain Hne Hnd.
  exists (Csv.dict_row header <$> filter (λ row, row ≠ []) records).
  split.
  { unfold load_csv. rewrite Hfile. by apply rows_of_bytes_plain. }
  split; [by rewrite length_fmap|].
  intros j r row Hr Hrow. rewrite list_lookup_fmap, Hrow in Hr.
  injection Hr as <-. split; [|split].
  - intros i k Hk. by apply dict_row_get.
  - intros k Hk. by apply dict_row_get_absent.
  - apply dict_row_rest.
Qed.

Lemma load_csv_cells_witness :
  let header := ["Issue key"; "Summary"; "Reporter email"] in
  let records := [["A-2"; "two"; "eve@x.com"; "extra"]; []; ["A-1"; "one"]] in
  let path := mkPath "exports" "2024-01-01.csv" in
  let w := with_exports example_world ["2024-01-01.csv"]
             (λ _, Contents (render (header :: records))) in
  ∃ rows,
    load_csv w path = inr rows
    ∧ length rows = 2
    ∧ ∀ r, rows !! 1 = Some r →
           get r "Issue key" = Some "A-1" ∧ get r "Reporter email" = None.
Proof.
  intros header records path w.
  assert (H1 : files w path = Contents (render (header :: records)))
    by (vm_compute; reflexivity).
  assert (H2 : Utf8.decode_sig (render (header :: records))
               = Some (render (header :: records)))
    by (vm_compute; reflexivity).
  assert (H3 : Forall (Forall plain_cell) (header :: records))
    by (repeat constructor; vm_compute; intros; discriminate).
  assert (H4 : Forall (λ row, row ≠ [EmptyString]) (header :: records))
    by (repeat constructor; discriminate).
  assert (H5 : NoDup header)
    by (apply (bool_decide_unpack _); vm_compute; exact I).
  assert (Hrow : filter (λ row : list string, row ≠ []) records !! 1
                 = Some ["A-1"; "one"]) by (vm_compute; reflexivity).
  assert (Hk0 : header !! 0 = Some "Issue key") by reflexivity.
  assert (Hk2 : header !! 2 = Some "Reporter email") by reflexivity.
  assert (Hlen : length (filter (λ row : list string, row ≠ []) records) = 2)
    by (vm_compute; reflexivity).
  destruct (load_csv_cells w path (render (header :: records)) header records
              H1 H2 H3 H4 H5) as (rows & Hload & Hlen' & Hcells).
  exists rows. split; [exact Hload|]. split; [by rewrite Hlen'|].
  intros r Hr.
  destruct (Hcells 1 r ["A-1"; "one"] Hr Hrow) as (Hget & _ & _).
  split; [exact (Hget 0 "Issue key" Hk0)|exact (Hget 2 "Reporter email" Hk2)].
Defined.

(** ** More on the drafts *)

Lemma list_ascii_of_string_app (s1 s2 : string) :
  String.list_ascii_of_string (s1 +:+ s2)
  = String.list_ascii_of_string s1 ++ String.list_ascii_of_string s2.
Proof.
  induction s1 as [|a s1 IH]; [done|].
  rewrite string_app_cons. simpl. by rewrite IH.
Qed.

(** The characters of [s.replace(c, t)] come from [t] or are characters of
    [s] other than [c]. *)
Lemma replace_chars (c : ascii) (t s : string) (a : ascii) :
  a ∈ String.list_ascii_of_string (Str.replace c t s) →
  a ∈ String.list_ascii_of_string t
  ∨ (a ∈ String.list_ascii_of_string s ∧ a ≠ c).
Proof.
  induction s as [|b s IH]; [by intros ?%elem_of_nil|].
  cbn [Str.replace]. destruct (Ascii.eqb_spec b c) as [->|Hne].
  - rewrite list_ascii_of_string_app, elem_of_app.
    intros [Ht|Hs]; [by left|].
    destruct (IH Hs) as [?|[? ?]]; [by left|right].
    split; [by apply list_elem_of_further|done].
  - simpl. intros [->|Hs]%elem_of_cons.
    + right. split; [apply list_elem_of_here|done].
    + destruct (IH Hs) as [?|[? ?]]; [by left|right].
      split; [by apply list_elem_of_further|done].
Qed.

(** X15. Whatever the recipient, the part of the name of a draft made from
    it holds none of the characters [@], [<] and [>]. *)
Theorem safe_to_characters (msg : EmailMessage) :
  Forall (λ a, a ≠ "@"%char ∧ a ≠ "<"%char ∧ a ≠ ">"%char)
    (String.list_ascii_of_string (safe_to msg)).
Proof.
  apply Forall_forall. intros a Ha. unfold safe_to in Ha.
  apply replace_chars in Ha as [Ha|[Ha Hlt]]; [by apply elem_of_nil in Ha|].
  apply replace_chars in Ha as [Ha|[Ha Hgt]]; [by apply elem_of_nil in Ha|].
  split; [|done].
  apply replace_chars in Ha as [Ha|[Ha Hat]]; [|done].
  intros ->. vm_compute in Ha.
  repeat (apply elem_of_cons in Ha as [Ha|Ha]; [discriminate|]).
  by apply elem_of_nil in Ha.
Qed.

(** X16. In the mode of one message per issue, the drafts of two issues with
    different keys for recipients that are rewritten alike, the same
    recipient above all, never get the same name, whatever the clock
    reads. *)
Theorem per_issue_draft_names_differ (w : World) (t1 t2 : Trace)
    (msg1 msg2 : EmailMessage) (key1 key2 : string) :
  safe_to msg1 = safe_to msg2 → key1 ≠ key2 →
  (save_as_eml w msg1 ("_" +:+ key1) t1).1
  ≠ (save_as_eml w msg2 ("_" +:+ key2) t2).1.
Proof.
  intros Hsafe Hkeys Heq. rewrite !save_as_eml_run in Heq.
  unfold draft_path in Heq. simpl in Heq.
  assert (Hname :
    draft_name (strftime (clock w (length t1))) msg1 ("_" +:+ key1)
    = draft_name (strftime (clock w (length t2))) msg2 ("_" +:+ key2))
    by congruence.
  apply draft_name_eq_iff in Hname as [_ Hrest];
    [|by rewrite !strftime_length].
  rewrite Hsafe in Hrest.
  apply (inj (String.app (safe_to msg2))) in Hrest.
  apply Hkeys. by injection Hrest.
Qed.

Lemma per_issue_draft_names_differ_witness :
  let w := example_world in
  let i1 := mkItem "A-1" "one" "2024-01-02" "bob" in
  let i2 := mkItem "A-2" "two" "2024-01-02" "bob" in
  let msg1 :=
    build_message w "bob@x.com" EMAIL_SUBJECT EMAIL_BODY (Some [i1]) in
  let msg2 :=
    build_message w "bob@x.com" EMAIL_SUBJECT EMAIL_BODY (Some [i2]) in
  (safe_to msg1 = safe_to msg2 ∧ "A-1" ≠ "A-2")
  ∧ (save_as_eml w msg1 ("_" +:+ "A-1") []).1
    ≠ (save_as_eml w msg2 ("_" +:+ "A-2") []).1.
Proof.
  intros w i1 i2 msg1 msg2.
  assert (H1 : safe_to msg1 = safe_to msg2) by reflexivity.
  assert (H2 : "A-1" ≠ "A-2") by discriminate.
  split; [done|].
  exact (per_issue_draft_names_differ w [] [] msg1 msg2 "A-1" "A-2" H1 H2).
Defined.

(** ** More on the message *)

Lemma sorted_of_Sorted {A} (key : A → string) (l : list A) :
  Sorted (key_le key) l → sorted key l = l.
Proof.
  induction 1 as [|x l Hl IH Hx]; [done|].
  cbn [sorted foldr]. fold (sorted key l). rewrite IH.
  destruct Hx as [|y l' Hxy]; [done|]. simpl.
  apply leb_key_le in Hxy. by rewrite Hxy.
Qed.

(** X17. Sorting the issues before they are given to [build_message]
    changes nothing: the message is the one built from the list as it was,
    also when some issues share a key.  A list without issues, like no
    list, leaves the body as it is, and a list with an issue never does. *)
Theorem build_message_presorted (w : World) (to_addr subject body : string)
    (issue : Item) (issues : list Item) :
  build_message w to_addr subject body (Some (sorted item_key issues))
  = build_message w to_addr subject body (Some issues)
  ∧ msg_content (build_message w to_addr subject body (Some [])) = body
  ∧ msg_content (build_message w to_addr subject body None) = body
  ∧ msg_content (build_message w to_addr subject body (Some (issue :: issues)))
    ≠ body.
Proof.
  split; [|split; [done|split; [done|]]].
  - destruct issues as [|x issues]; [done|].
    assert (Hne : sorted item_key (x :: issues) ≠ []).
    { intros Hnil.
      assert (Hperm := sorted_Permutation item_key (x :: issues)).
      rewrite Hnil in Hperm. by apply Permutation_nil_cons in Hperm. }
    assert (H1 := build_message_content w to_addr subject body _ Hne).
    assert (H2 := build_message_content w to_addr subject body (x :: issues)
                    ltac:(done)).
    rewrite (sorted_of_Sorted item_key _ (Sorted_sorted item_key _)) in H1.
    unfold build_message in *. simpl in *. f_equal. congruence.
  - intros Heq. rewrite build_message_content in Heq by done.
    apply (f_equal String.length) in Heq.
    rewrite !string_length_app in Heq.
    assert (0 < String.length issues_header) by (vm_compute; lia).
    lia.
Qed.

(** ** The loader on quoted cells and on both line ends *)

Lemma one_line_replace_quote (c : string) :
  one_line c → one_line (Str.replace Csv.quotechar (quote +:+ quote) c).
Proof.
  induction c as [|a c IH]; intros Hc; [apply one_line_nil|].
  apply one_line_cons in Hc as [Ha Hc]. cbn [Str.replace].
  destruct (Ascii.eqb a Csv.quotechar).
  - apply one_line_app. split; [|by apply IH].
    apply one_line_cons. split; [done|].
    apply one_line_cons. split; [done|apply one_line_nil].
  - apply one_line_cons. split; [done|by apply IH].
Qed.

Lemma one_line_write_cell (c : string) : one_line c → one_line (write_cell c).
Proof.
  intros Hc. unfold write_cell. destruct (plain_text c); [done|].
  unfold quote_cell. rewrite !one_line_app.
  split; [|split; [by apply one_line_replace_quote|]];
    (apply one_line_cons; split; [done|apply one_line_nil]).
Qed.

Lemma one_line_write_cells (row : list string) :
  Forall line_cell row → one_line (String.concat "," (write_cell <$> row)).
Proof.
  induction 1 as [|c row [Hc _] Hrow IH]; [apply one_line_nil|].
  destruct row as [|c' row]; [by apply one_line_write_cell|].
  rewrite !fmap_cons, concat_cons_cons, <- fmap_cons.
  rewrite !one_line_app. split; [by apply one_line_write_cell|].
  split; [|done]. apply one_line_cons. split; [done|apply one_line_nil].
Qed.

Lemma lines_from_one_line_crlf (s cur rest : string) :
  one_line s →
  lines_from cur (s +:+ crlf +:+ rest)
  = (cur +:+ s +:+ crlf) :: lines_from EmptyString rest.
Proof.
  revert cur. induction s as [|a s IH]; intros cur Hs.
  - reflexivity.
  - apply one_line_cons in Hs as [Ha Hs].
    apply is_crlf_false in Ha as [Hlf Hcr].
    rewrite string_app_cons. cbn [lines_from]. rewrite Hlf, Hcr.
    rewrite IH by done. by rewrite string_app_assoc.
Qed.

Lemma lines_of_write_records (eol : string) (records : list (list string)) :
  eol = nl ∨ eol = crlf →
  Forall (Forall line_cell) records →
  lines_of (write_records eol records) = write_row eol <$> records.
Proof.
  intros Heol. unfold lines_of.
  induction 1 as [|row records Hrow Hrecords IH]; [done|].
  cbn [write_records foldr]. unfold write_row at 1.
  rewrite string_app_assoc, fmap_cons.
  destruct Heol as [-> | ->].
  - rewrite lines_from_one_line by (by apply one_line_write_cells).
    f_equal. exact IH.
  - rewrite lines_from_one_line_crlf by (by apply one_line_write_cells).
    f_equal. exact IH.
Qed.

(** Inside quotes every character joins the field, a doubled quote as one
    quote. *)
Lemma feed_in_quoted (c f rest : string) (fs : list string) :
  (Utf8.code_points (f +:+ c) ≤ Csv.field_limit)%N →
  Csv.feed_line (Csv.mkReader Csv.IN_QUOTED_FIELD fs f (Utf8.code_points f))
    (Str.replace Csv.quotechar (quote +:+ quote) c +:+ rest)
  = Csv.feed_line
      (Csv.mkReader Csv.IN_QUOTED_FIELD fs (f +:+ c)
         (Utf8.code_points (f +:+ c)))
      rest.
Proof.
  revert f. induction c as [|a c IH]; intros f Hlen.
  - by rewrite string_app_nil_l, string_app_nil_r.
  - replace (f +:+ String a c) with ((f +:+ String a EmptyString) +:+ c)
      in * by (by rewrite string_app_assoc).
    assert (Hadd := parse_add_char_plain a Csv.IN_QUOTED_FIELD fs f).
    rewrite <- IH by done. cbn [Str.replace].
    destruct (Ascii.eqb_spec a Csv.quotechar) as [->|Hne].
    + rewrite string_app_assoc.
      change (quote +:+ quote)
        with (String Csv.quotechar (String Csv.quotechar EmptyString)).
      rewrite !string_app_cons, string_app_nil_l, !feed_line_cons.
      unfold Csv.parse_process_char at 1. cbn [Csv.state].
      rewrite Ascii.eqb_refl. unfold Csv.set_state.
      cbn [Csv.state Csv.fields Csv.field Csv.field_len].
      rewrite feed_line_cons.
      unfold Csv.parse_process_char at 1. cbn [Csv.state].
      rewrite Ascii.eqb_refl. unfold Csv.add_char_then.
      rewrite (parse_add_char_plain Csv.quotechar Csv.QUOTE_IN_QUOTED_FIELD)
        by (rewrite code_points_app in Hlen; lia).
      done.
    + rewrite string_app_cons, feed_line_cons.
      unfold Csv.parse_process_char at 1. cbn [Csv.state].
      apply Ascii.eqb_neq in Hne. rewrite Hne. unfold Csv.add_char_then.
      rewrite Hadd by (rewrite code_points_app in Hlen; lia). done.
Qed.

(** A quoted cell read from the start of a field. *)
Lemma feed_quoted_cell (c rest : string) (st : Csv.ParserState)
    (fs : list string) :
  st = Csv.START_RECORD ∨ st = Csv.START_FIELD →
  (Utf8.code_points c ≤ Csv.field_limit)%N →
  Csv.feed_line (Csv.mkReader st fs EmptyString 0) (quote_cell c +:+ rest)
  = Csv.feed_line
      (Csv.mkReader Csv.QUOTE_IN_QUOTED_FIELD fs c (Utf8.code_points c)) rest.
Proof.
  intros Hst Hlen. unfold quote_cell.
  rewrite !string_app_assoc.
  change (quote +:+ ?s) with (String Csv.quotechar s) at 1.
  rewrite feed_line_cons.
  replace (Csv.parse_process_char (Csv.mkReader st fs EmptyString 0)
             (Some Csv.quotechar))
    with (inr (A := Exn)
            (Csv.mkReader Csv.IN_QUOTED_FIELD fs EmptyString
               (Utf8.code_points EmptyString)))
    by (by destruct Hst as [-> | ->]).
  rewrite feed_in_quoted by done. rewrite string_app_nil_l.
  change (quote +:+ rest) with (String Csv.quotechar rest).
  rewrite feed_line_cons. reflexivity.
Qed.

Lemma feed_write_cell (c rest : string) (st : Csv.ParserState)
    (fs : list string) :
  st = Csv.START_RECORD ∨ st = Csv.START_FIELD →
  line_cell c →
  Csv.feed_line (Csv.mkReader st fs EmptyString 0) (write_cell c +:+ rest)
  = Csv.feed_line (after_cell st fs c) rest.
Proof.
  intros Hst [Hline Hlen]. unfold write_cell, after_cell.
  destruct (plain_text c) eqn:Hplain.
  - destruct c as [|a c]; [done|]. by apply feed_cell.
  - by apply feed_quoted_cell.
Qed.

Lemma after_cell_comma (c rest : string) (st : Csv.ParserState)
    (fs : list string) :
  st = Csv.START_RECORD ∨ st = Csv.START_FIELD →
  Csv.feed_line (after_cell st fs c) ("," +:+ rest)
  = Csv.feed_line (Csv.mkReader Csv.START_FIELD (fs ++ [c]) EmptyString 0)
      rest.
Proof.
  intros Hst. unfold after_cell.
  destruct (plain_text c); [destruct c as [|a c]|];
    destruct Hst as [-> | ->]; reflexivity.
Qed.

Lemma after_cell_eol (c eol : string) (st : Csv.ParserState)
    (fs : list string) :
  eol = nl ∨ eol = crlf →
  st = Csv.START_FIELD ∨ (st = Csv.START_RECORD ∧ c ≠ EmptyString) →
  Csv.feed_line (after_cell st fs c) eol
  = inr (Csv.mkReader Csv.START_RECORD (fs ++ [c]) EmptyString 0).
Proof.
  intros Heol Hst. unfold after_cell.
  destruct (plain_text c); [destruct c as [|a c]|];
    destruct Heol as [-> | ->]; destruct Hst as [->|[-> ?]];
    done || reflexivity.
Qed.

Lemma feed_write_cells (cells : list string) (eol : string)
    (st : Csv.ParserState) (fs : list string) :
  eol = nl ∨ eol = crlf →
  Forall line_cell cells → cells ≠ [] →
  st = Csv.START_FIELD ∨ (st = Csv.START_RECORD ∧ cells ≠ [EmptyString]) →
  Csv.feed_line (Csv.mkReader st fs EmptyString 0)
    (String.concat "," (write_cell <$> cells) +:+ eol)
  = inr (Csv.mkReader Csv.START_RECORD (fs ++ cells) EmptyString 0).
Proof.
  intros Heol Hcells. revert st fs.
  induction Hcells as [|c cells Hc Hcells IH]; intros st fs Hne Hst; [done|].
  assert (Hst' : st = Csv.START_RECORD ∨ st = Csv.START_FIELD) by tauto.
  destruct cells as [|c' cells].
  - cbn [fmap list_fmap String.concat].
    rewrite feed_write_cell by done. apply after_cell_eol; [done|].
    destruct Hst as [->|[-> Hrow]]; [by left|right].
    split; [done|]. by intros ->.
  - rewrite !fmap_cons, concat_cons_cons, <- fmap_cons, !string_app_assoc.
    rewrite feed_write_cell by done.
    rewrite after_cell_comma by done.
    rewrite IH by (done || by left). by rewrite <- app_assoc.
Qed.

Lemma feed_write_row (eol : string) (row : list string) :
  eol = nl ∨ eol = crlf →
  Forall line_cell row → row ≠ [EmptyString] →
  Csv.feed_line Csv.reset (write_row eol row)
  = inr (Csv.mkReader Csv.START_RECORD row EmptyString 0).
Proof.
  intros Heol Hrow Hne. unfold write_row. destruct row as [|c row].
  - by destruct Heol as [-> | ->].
  - unfold Csv.reset. rewrite feed_write_cells; [done..|]. by right.
Qed.

Lemma reader_write_records (eol : string) (records : list (list string)) :
  eol = nl ∨ eol = crlf →
  Forall (Forall line_cell) records →
  Forall (λ row, row ≠ [EmptyString]) records →
  Csv.reader (write_row eol <$> records) = inr records.
Proof.
  intros Heol. unfold Csv.reader.
  induction 1 as [|row records Hrow Hrecords IH]; intros Hne; [done|].
  apply Forall_cons in Hne as [Hne1 Hne].
  rewrite fmap_cons. cbn [Csv.records_from].
  rewrite feed_write_row by done. cbn [Csv.state].
  rewrite decide_True by done. rewrite IH by done. done.
Qed.

(** X18. A file whose records end with a line feed, or all with a carriage
    return and a line feed, and whose cells with a comma or a quote stand
    between quotes with their quotes doubled, loads as the rows of its
    records after the first, in their order and without the blank lines:
    the cells come back with their commas and quotes, and the line end of
    the file makes no difference. *)
Theorem load_csv_quoted_cells (w : World) (path : Path) (bytes eol : string)
    (header : list string) (records : list (list string)) :
  files w path = Contents bytes →
  eol = nl ∨ eol = crlf →
  Utf8.decode_sig bytes = Some (write_records eol (header :: records)) →
  Forall (Forall line_cell) (header :: records) →
  Forall (λ row, row ≠ [EmptyString]) (header :: records) →
  load_csv w path
  = inr (Csv.dict_row header <$> filter (λ row, row ≠ []) records).
Proof.
  intros Hfile Heol Hdecode Hcells Hne.
  unfold load_csv, rows_of_bytes. rewrite Hfile, Hdecode.
  rewrite lines_of_write_records by done.
  rewrite reader_write_records by done. done.
Qed.

Lemma one_line_check (s : string) :
  forallb (λ a, negb (Csv.is_crlf a)) (String.list_ascii_of_string s) = true →
  one_line s.
Proof.
  intros Hall a Ha. rewrite forallb_forall in Hall.
  apply list_elem_of_In, Hall, negb_true_iff in Ha. done.
Qed.

Lemma load_csv_quoted_cells_witness :
  let header := ["Issue key"; "Summary"] in
  let summary := "fix, " +:+ quote +:+ "urgent" +:+ quote +:+ " bug" in
  let records := [["A-1"; summary]] in
  let path := mkPath "exports" "2024-01-01.csv" in
  let w := with_exports example_world ["2024-01-01.csv"]
             (λ _, Contents (Utf8.BOM
                             +:+ write_records crlf (header :: records))) in
  write_cell summary
  = quote +:+ "fix, " +:+ quote +:+ quote +:+ "urgent" +:+ quote +:+ quote
    +:+ " bug" +:+ quote
  ∧ load_csv w path = inr [Csv.dict_row header ["A-1"; summary]].
Proof.
  intros header summary records path w.
  split; [vm_compute; reflexivity|].
  assert (H1 : files w path
               = Contents (Utf8.BOM +:+ write_records crlf (header :: records)))
    by (vm_compute; reflexivity).
  assert (H2 : Utf8.decode_sig
                 (Utf8.BOM +:+ write_records crlf (header :: records))
               = Some (write_records crlf (header :: records)))
    by (vm_compute; reflexivity).
  assert (H3 : Forall (Forall line_cell) (header :: records)).
  { repeat (apply Forall_cons; split); try apply Forall_nil_2;
      (split; [apply one_line_check; vm_compute; reflexivity
              |vm_compute; intros; discriminate]). }
  assert (H4 : Forall (λ row, row ≠ [EmptyString]) (header :: records))
    by (repeat constructor; discriminate).
  rewrite (load_csv_quoted_cells w path _ crlf header records H1
             (or_intror eq_refl) H2 H3 H4).
  reflexivity.
Defined.
